(** * plaincast: the YouTube media-player coordinator (apps/youtube/mp)

    A shallow embedding of [player.go]: the play state, the command
    handlers that run under [getPlayState], the continuations of the
    background goroutines and the event loop [run], followed by the
    properties of the coordinator that the specification states. *)

From Stdlib Require Import ZArith List String Bool Lia.
Import ListNotations.
Open Scope string_scope.
Open Scope list_scope.
Open Scope Z_scope.

(** ** Go primitives *)

(** Go's [int] on a 64-bit platform: two's complement, silent wrap-around. *)
Module GoInt.

Definition min_int : Z := - 2 ^ 63.
Definition max_int : Z := 2 ^ 63 - 1.

Definition in_range (z : Z) : Prop := min_int <= z <= max_int.

Definition wrap (z : Z) : Z := (z + 2 ^ 63) mod 2 ^ 64 - 2 ^ 63.

Definition add (a b : Z) : Z := wrap (a + b).
Definition sub (a b : Z) : Z := wrap (a - b).

End GoInt.

(** [len(s)] of a slice. *)
Definition len {A : Type} (s : list A) : Z := Z.of_nat (List.length s).

(** [s[i]] of a slice; [None] is Go's run-time panic "index out of range". *)
Definition slice_get {A : Type} (s : list A) (i : Z) : option A :=
  if i <? 0 then None else nth_error s (Z.to_nat i).

(** ** Data model (mp.go and the fields player.go uses) *)

(** [type State int]: the constants are an iota enumeration, and the code
    also stores the sentinel [-1] in a [State] (see [nextState]). *)
Definition State : Type := Z.

Definition STATE_STOPPED : State := 0.
Definition STATE_PLAYING : State := 1.
Definition STATE_PAUSED : State := 2.
Definition STATE_BUFFERING : State := 3.
(** Modelled from the spec: the declaration of [STATE_SEEKING] is not in
    mp.go; the spec lists Seeking as the fifth state, here the next value
    of the enumeration. *)
Definition STATE_SEEKING : State := 4.

(** [time.Duration]: an int64; the coordinator only compares and forwards
    positions, it does no arithmetic on them. *)
Definition Duration : Type := Z.

(** [PlayState].  mp.go declares the first five fields; [previousState],
    [newVolume] and [nextState] are the further fields player.go reads and
    writes (the spec's previousState, pendingVolumeApply and nextState).
    The field [State] is [State_] here: the name is taken by its type. *)
Record PlayState : Type := mkPlayState {
  Playlist : list string;
  Index : Z;
  State_ : State;
  Volume : Z;
  bufferingPosition : Duration;
  previousState : State;
  newVolume : bool;
  nextState : State
}.

Definition set_Playlist (v : list string) (ps : PlayState) : PlayState :=
  mkPlayState v (Index ps) (State_ ps) (Volume ps) (bufferingPosition ps)
              (previousState ps) (newVolume ps) (nextState ps).
Definition set_Index (v : Z) (ps : PlayState) : PlayState :=
  mkPlayState (Playlist ps) v (State_ ps) (Volume ps) (bufferingPosition ps)
              (previousState ps) (newVolume ps) (nextState ps).
Definition set_State (v : State) (ps : PlayState) : PlayState :=
  mkPlayState (Playlist ps) (Index ps) v (Volume ps) (bufferingPosition ps)
              (previousState ps) (newVolume ps) (nextState ps).
Definition set_Volume (v : Z) (ps : PlayState) : PlayState :=
  mkPlayState (Playlist ps) (Index ps) (State_ ps) v (bufferingPosition ps)
              (previousState ps) (newVolume ps) (nextState ps).
Definition set_bufferingPosition (v : Duration) (ps : PlayState) : PlayState :=
  mkPlayState (Playlist ps) (Index ps) (State_ ps) (Volume ps) v
              (previousState ps) (newVolume ps) (nextState ps).
Definition set_previousState (v : State) (ps : PlayState) : PlayState :=
  mkPlayState (Playlist ps) (Index ps) (State_ ps) (Volume ps)
              (bufferingPosition ps) v (newVolume ps) (nextState ps).
Definition set_newVolume (v : bool) (ps : PlayState) : PlayState :=
  mkPlayState (Playlist ps) (Index ps) (State_ ps) (Volume ps)
              (bufferingPosition ps) (previousState ps) v (nextState ps).
Definition set_nextState (v : State) (ps : PlayState) : PlayState :=
  mkPlayState (Playlist ps) (Index ps) (State_ ps) (Volume ps)
              (bufferingPosition ps) (previousState ps) (newVolume ps) v.

(** Modelled from the spec: [PlayState.Video] is not under src/; the spec
    calls it the identifier at the current index.  With no entry at the
    index it is the empty string. *)
Definition Video (ps : PlayState) : string :=
  match slice_get (Playlist ps) (Index ps) with
  | Some v => v
  | None => ""
  end.

(** Modelled from the spec: [PlayState.NextVideo] is not under src/; the
    spec calls it the track at index+1, if any, and the callers test it
    against the empty string. *)
Definition NextVideo (ps : PlayState) : string :=
  match slice_get (Playlist ps) (GoInt.add (Index ps) 1) with
  | Some v => v
  | None => ""
  end.

(** [StateChange{state, position}] and everything else a handler does to
    the outside: channel sends, backend commands, log lines, goroutines. *)
Inductive Effect : Type :=
| SendStateChange (state : State) (position : Duration)
| SendVolume (volume : Z)
| SendPlaylist (playlist : list string) (index : Z) (position : Duration)
               (state : State)
| PlayerPlay (streamUrl : string) (position : Duration) (volume : Z)
| PlayerPause
| PlayerResume
| PlayerStop
| PlayerSetPosition (position : Duration)
| PlayerSetVolume (volume : Z)
| PlayerQuit
| VgQuit
| Log (msg : string)
| GoGetStream (videoId : string) (position : Duration)
| GoPrefetchVideoStream (videoId : string)
| GoVgGetStream (videoId : string)
| CloseStateChange
| ClosePlaystateChan.

(** ** The handler monad: play state, effect trace, panic *)

Inductive Outcome (A : Type) : Type :=
| Done (a : A) (ps : PlayState) (tr : list Effect)
| Panicked (msg : string) (tr : list Effect).
Arguments Done {A} a ps tr.
Arguments Panicked {A} msg tr.

Definition M (A : Type) : Type := PlayState -> Outcome A.

Definition ret {A : Type} (a : A) : M A := fun ps => Done a ps [].

Definition bind {A B : Type} (m : M A) (f : A -> M B) : M B :=
  fun ps =>
    match m ps with
    | Done a ps1 tr1 =>
        match f a ps1 with
        | Done b ps2 tr2 => Done b ps2 (tr1 ++ tr2)
        | Panicked msg tr2 => Panicked msg (tr1 ++ tr2)
        end
    | Panicked msg tr1 => Panicked msg tr1
    end.

Definition get : M PlayState := fun ps => Done ps ps [].
Definition modify (f : PlayState -> PlayState) : M unit :=
  fun ps => Done tt (f ps) [].
Definition emit (e : Effect) : M unit := fun ps => Done tt ps [e].
Definition panic {A : Type} (msg : string) : M A := fun _ => Panicked msg [].

Declare Scope go_scope.
Delimit Scope go_scope with go.
Notation "x <- m ;; k" := (bind m (fun x => k))
  (at level 61, m at next level, right associativity) : go_scope.
Notation "m ;; k" := (bind m (fun _ => k))
  (at level 61, right associativity) : go_scope.
Notation "'when' b 'then' m" := (if b then m else ret tt)
  (at level 60, b at level 0) : go_scope.
Open Scope go_scope.

(** [s[i]] inside a handler. *)
Definition index_or_panic (s : list string) (i : Z) : M string :=
  match slice_get s i with
  | Some v => ret v
  | None => panic "runtime error: index out of range"
  end.

(** ** The handlers of player.go *)

Section Handlers.

(** What [p.player.getPosition()] answers if the handler asks; [None] is
    a non-nil [err]. *)
Variable player_getPosition : option Duration.

Definition getPosition : M Duration :=
  ps <- get ;;
  position <-
    (if State_ ps =? STATE_STOPPED then ret 0
     else if (State_ ps =? STATE_BUFFERING) || (State_ ps =? STATE_SEEKING)
     then ret (bufferingPosition ps)
     else if (State_ ps =? STATE_PLAYING) || (State_ ps =? STATE_PAUSED)
     then match player_getPosition with
          | Some position => ret position
          | None => panic "getPosition: backend error"
          end
     else panic "unknown state") ;;
  if position <? 0 then panic "got position < 0" else ret position.

Definition setPlayState (state : State) (position : Duration) : M unit :=
  ps <- get ;;
  let position :=
    if State_ ps =? STATE_SEEKING then bufferingPosition ps else position in
  modify (set_previousState (State_ ps)) ;;
  modify (set_State state) ;;
  (if (state =? STATE_BUFFERING) || (state =? STATE_SEEKING)
   then modify (set_bufferingPosition position)
   else modify (set_bufferingPosition (-1))) ;;
  position <- (if position =? -1 then getPosition else ret position) ;;
  emit (SendStateChange state position).

(** [startPlaying] up to the [go func()]; the goroutine is the effect
    [GoGetStream videoId position], its continuation is
    [startPlaying_resolved]. *)
Definition startPlaying (position : Duration) : M unit :=
  ps <- get ;;
  when (State_ ps =? STATE_PLAYING) then emit PlayerStop ;;
  setPlayState STATE_BUFFERING position ;;
  ps <- get ;;
  videoId <- index_or_panic (Playlist ps) (Index ps) ;;
  emit (GoGetStream videoId position).

Definition nextVideo : M unit :=
  ps <- get ;;
  if GoInt.add (Index ps) 1 <? len (Playlist ps) then
    modify (set_Index (GoInt.add (Index ps) 1)) ;;
    modify (set_State STATE_STOPPED) ;;
    startPlaying 0
  else
    setPlayState STATE_STOPPED 0.

(** The callback of the goroutine started by [startPlaying], run under
    [getPlayState] once [p.vg.GetStream(videoId)] has answered
    [streamUrl]. *)
Definition startPlaying_resolved
           (videoId streamUrl : string) (position : Duration) : M unit :=
  ps <- get ;;
  if negb (Video ps =? videoId)%string then
    emit (Log "Video %s isn't needed anymore")
  else if (streamUrl =? "")%string then
    emit (Log "WARNING: empty stream URL") ;;
    nextVideo
  else
    volume <- (if newVolume ps
               then modify (set_newVolume false) ;; ret (Volume ps)
               else ret (-1)) ;;
    emit (PlayerPlay streamUrl position volume) ;;
    ps <- get ;;
    emit (GoPrefetchVideoStream (NextVideo ps)).

(** The callback of [prefetchVideoStream], run under [getPlayState] after
    the sleep. *)
Definition prefetchVideoStream_callback (videoId : string) : M unit :=
  ps <- get ;;
  let next := NextVideo ps in
  if (next =? "")%string || negb (next =? videoId)%string then ret tt
  else emit (GoVgGetStream next).

(** The [for i, v := range ps.Playlist] loop of [setPlaylistIndex]: the
    rest of the slice from position [i] on, [newIndex] so far; the result
    is the final [newIndex] and whether the duplicate warning was
    logged (the loop then breaks). *)
Fixpoint setPlaylistIndex_loop (videoId : string) (rest : list string)
         (i newIndex : Z) : Z * bool :=
  match rest with
  | [] => (newIndex, false)
  | v :: rest' =>
      if (v =? videoId)%string then
        if 0 <=? newIndex then (newIndex, true)
        else setPlaylistIndex_loop videoId rest' (i + 1) i
      else setPlaylistIndex_loop videoId rest' (i + 1) newIndex
  end.

Definition setPlaylistIndex (videoId : string) : M unit :=
  ps <- get ;;
  let '(newIndex, warned) :=
    setPlaylistIndex_loop videoId (Playlist ps) 0 (-1) in
  when warned then emit (Log "WARNING: videoId exists twice in playlist") ;;
  if newIndex =? -1 then
    panic "current video does not exist in new playlist"
  else modify (set_Index newIndex).

Definition updatePlaylist (playlist : list string) : M unit :=
  ps <- get ;;
  let nextVideo := NextVideo ps in
  (if len (Playlist ps) =? 0 then
     (if State_ ps =? STATE_PLAYING
      then panic "empty playlist while playing" else ret tt) ;;
     modify (set_Playlist playlist) ;;
     when (len playlist <=? Index ps) then
       modify (set_Index (GoInt.sub (len playlist) 1))
   else
     videoId <- index_or_panic (Playlist ps) (Index ps) ;;
     modify (set_Playlist playlist) ;;
     setPlaylistIndex videoId) ;;
  ps <- get ;;
  when (negb (NextVideo ps =? nextVideo)%string) then
    emit (GoPrefetchVideoStream (NextVideo ps)).

Definition UpdatePlaylist (playlist : list string) : M unit :=
  updatePlaylist playlist.

Definition stop : M unit :=
  modify (set_Playlist []) ;;
  emit PlayerStop.

Definition Stop : M unit := stop.

Definition SetPlaystate (playlist : list string) (index : Z)
           (position : Duration) : M unit :=
  ps <- get ;;
  unchanged <-
    (if (State_ ps =? STATE_BUFFERING)
          && (bufferingPosition ps =? position)
          && (Index ps <? len (Playlist ps))
     then new <- index_or_panic playlist index ;;
          cur <- index_or_panic (Playlist ps) (Index ps) ;;
          ret (new =? cur)%string
     else ret false) ;;
  if unchanged then updatePlaylist playlist
  else
    modify (set_Playlist playlist) ;;
    modify (set_Index index) ;;
    if 0 <? len playlist then startPlaying position else stop.

Definition SetVideo (videoId : string) (position : Duration) : M unit :=
  setPlaylistIndex videoId ;;
  startPlaying position.

(** The reply slot is drained first; what is sent is the snapshot. *)
Definition RequestPlaylist : M unit :=
  ps <- get ;;
  position <- getPosition ;;
  emit (SendPlaylist (Playlist ps) (Index ps) position (State_ ps)).

Definition Pause : M unit :=
  ps <- get ;;
  if State_ ps =? STATE_SEEKING then modify (set_nextState STATE_PAUSED)
  else if negb (State_ ps =? STATE_PLAYING) then
    emit (Log "Warning: pause while in state %d - ignoring")
  else emit PlayerPause.

Definition Play : M unit :=
  ps <- get ;;
  if State_ ps =? STATE_STOPPED then
    if len (Playlist ps) <=? Index ps then
      emit (Log "Warning: invalid index or empty playlist")
    else startPlaying 0
  else if State_ ps =? STATE_SEEKING then
    modify (set_nextState STATE_PLAYING)
  else if negb (State_ ps =? STATE_PAUSED) then
    emit (Log "Warning: resume while in state %d - ignoring")
  else emit PlayerResume.

Definition Seek (position : Duration) : M unit :=
  ps <- get ;;
  if State_ ps =? STATE_STOPPED then startPlaying position
  else if (State_ ps =? STATE_PAUSED) || (State_ ps =? STATE_PLAYING) then
    setPlayState STATE_SEEKING position ;;
    emit (PlayerSetPosition position)
  else
    emit (Log "Warning: state is not paused or playing while seeking (state: %d) - ignoring").

Definition applyVolume : M unit :=
  ps <- get ;;
  (if (State_ ps =? STATE_PLAYING) || (State_ ps =? STATE_PAUSED)
   then emit (PlayerSetVolume (Volume ps))
   else modify (set_newVolume true)) ;;
  emit (SendVolume (Volume ps)).

Definition SetVolume (volume : Z) : M unit :=
  modify (set_Volume volume) ;;
  applyVolume.

Definition ChangeVolume (delta : Z) : M unit :=
  ps <- get ;;
  modify (set_Volume (GoInt.add (Volume ps) delta)) ;;
  ps <- get ;;
  when (Volume ps <? 0) then modify (set_Volume 0) ;;
  ps <- get ;;
  when (100 <? Volume ps) then modify (set_Volume 100) ;;
  applyVolume.

Definition RequestVolume : M unit :=
  ps <- get ;;
  emit (SendVolume (Volume ps)).

Definition Quit : M unit :=
  emit PlayerQuit ;;
  emit VgQuit.

(** The body of [run] for one event received from [playerEventChan]
    ([ok] true). *)
Definition run_event (event : State) : M unit :=
  if event =? STATE_PLAYING then
    ps <- get ;;
    when (newVolume ps) then
      (modify (set_newVolume false) ;;
       emit (PlayerSetVolume (Volume ps))) ;;
    ps <- get ;;
    if State_ ps =? STATE_SEEKING then
      if negb (nextState ps =? -1)
           && negb (previousState ps =? nextState ps)
      then
        modify (set_State (previousState ps)) ;;
        let state := nextState ps in
        modify (set_nextState (-1)) ;;
        if state =? STATE_PLAYING then emit PlayerResume
        else if state =? STATE_PAUSED then emit PlayerPause
        else panic "unknown nextState"
      else setPlayState (previousState ps) (-1)
    else setPlayState STATE_PLAYING (-1)
  else if event =? STATE_PAUSED then
    ps <- get ;;
    if State_ ps =? STATE_BUFFERING then ret tt
    else setPlayState STATE_PAUSED (-1)
  else if event =? STATE_STOPPED then
    ps <- get ;;
    if State_ ps =? STATE_BUFFERING then ret tt
    else nextVideo
  else ret tt.

End Handlers.

(** ** The coordinator: access serialisation and the main loop *)

(** The loop [run] owns the play state while it is running; after the
    backend's event channel is closed it has closed [playstateChan] and
    returned.  A panic in any goroutine ends the process. *)
Inductive Coordinator : Type :=
| Running (ps : PlayState)
| Closed
| Crashed (msg : string).

(** [getPlayState]: receive the play state from [playstateChan], run the
    callback on it and send it back; on a closed channel, return. *)
Definition getPlayState (callback : M unit) (c : Coordinator)
  : Coordinator * list Effect :=
  match c with
  | Running ps =>
      match callback ps with
      | Done _ ps' tr => (Running ps', tr)
      | Panicked msg tr => (Crashed msg, tr)
      end
  | Closed => (Closed, [])
  | Crashed msg => (Crashed msg, [])
  end.

(** The public methods of [MediaPlayer]. *)
Inductive Call : Type :=
| CallQuit
| CallSetPlaystate (playlist : list string) (index : Z) (position : Duration)
| CallUpdatePlaylist (playlist : list string)
| CallSetVideo (videoId : string) (position : Duration)
| CallRequestPlaylist
| CallPause
| CallPlay
| CallSeek (position : Duration)
| CallSetVolume (volume : Z)
| CallChangeVolume (delta : Z)
| CallRequestVolume
| CallStop.

Definition callback_of (player_getPosition : option Duration) (c : Call)
  : M unit :=
  match c with
  | CallQuit => Quit
  | CallSetPlaystate playlist index position =>
      SetPlaystate player_getPosition playlist index position
  | CallUpdatePlaylist playlist => UpdatePlaylist playlist
  | CallSetVideo videoId position =>
      SetVideo player_getPosition videoId position
  | CallRequestPlaylist => RequestPlaylist player_getPosition
  | CallPause => Pause
  | CallPlay => Play player_getPosition
  | CallSeek position => Seek player_getPosition position
  | CallSetVolume volume => SetVolume volume
  | CallChangeVolume delta => ChangeVolume delta
  | CallRequestVolume => RequestVolume
  | CallStop => Stop
  end.

(** Every public method is one [getPlayState] around its callback. *)
Definition call (player_getPosition : option Duration) (c : Call)
  : Coordinator -> Coordinator * list Effect :=
  getPlayState (callback_of player_getPosition c).

(** [prefetchVideoStream] once its sleep is over. *)
Definition prefetchVideoStream (videoId : string) (c : Coordinator)
  : Coordinator * list Effect :=
  if (videoId =? "")%string then (c, [])
  else getPlayState (prefetchVideoStream_callback videoId) c.

(** One iteration of the [select] in [run] that takes the backend-event
    case: [None] is the closed channel. *)
Definition run_select_event (player_getPosition : option Duration)
           (event : option State) (c : Coordinator)
  : Coordinator * list Effect :=
  match c with
  | Running ps =>
      match event with
      | None => (Closed, [CloseStateChange; ClosePlaystateChan])
      | Some e =>
          match run_event player_getPosition e ps with
          | Done _ ps' tr => (Running ps', tr)
          | Panicked msg tr => (Crashed msg, tr)
          end
      end
  | Closed => (Closed, [])
  | Crashed msg => (Crashed msg, [])
  end.

(** What can happen to the coordinator: a method call, the completion of a
    stream resolution, a prefetch whose delay is over, a backend event. *)
Inductive Input : Type :=
| Command (c : Call)
| StreamResolved (videoId streamUrl : string) (position : Duration)
| PrefetchDue (videoId : string)
| PlayerEvent (event : State)
| PlayerEventsClosed.

(** One step; [player_getPosition] is the backend's answer during it. *)
Definition step (c : Coordinator) (x : option Duration * Input)
  : Coordinator * list Effect :=
  let '(player_getPosition, input) := x in
  match input with
  | Command cmd => call player_getPosition cmd c
  | StreamResolved videoId streamUrl position =>
      getPlayState
        (startPlaying_resolved player_getPosition videoId streamUrl position) c
  | PrefetchDue videoId => prefetchVideoStream videoId c
  | PlayerEvent event => run_select_event player_getPosition (Some event) c
  | PlayerEventsClosed => run_select_event player_getPosition None c
  end.

Fixpoint steps (c : Coordinator) (xs : list (option Duration * Input))
  : Coordinator * list Effect :=
  match xs with
  | [] => (c, [])
  | x :: xs' =>
      let '(c1, tr1) := step c x in
      let '(c2, tr2) := steps c1 xs' in
      (c2, tr1 ++ tr2)
  end.

(** The play state [run] starts with: [PlayState{}] with the backend's
    initial volume and [nextState = -1]. *)
Definition initial_PlayState (initialVolume : Z) : PlayState :=
  mkPlayState [] 0 STATE_STOPPED initialVolume 0 STATE_STOPPED false (-1).

(** The state-change events of a trace, in order. *)
Definition stateChanges (tr : list Effect) : list (State * Duration) :=
  flat_map (fun e => match e with
                     | SendStateChange s p => [(s, p)]
                     | _ => []
                     end) tr.

(** ** Predicates used by the statements *)

(** Weakest precondition for partial correctness: what holds of the result
    and the play state when the handler returns. *)
Definition wp {A : Type} (m : M A) (Q : A -> PlayState -> Prop)
           (ps : PlayState) : Prop :=
  match m ps with
  | Done a ps' _ => Q a ps'
  | Panicked _ _ => True
  end.

(** Total correctness with the trace: the handler returns, and what holds
    of the result, the play state and the effects. *)
Definition returns {A : Type} (m : M A)
           (Q : A -> PlayState -> list Effect -> Prop)
           (ps : PlayState) : Prop :=
  match m ps with
  | Done a ps' tr => Q a ps' tr
  | Panicked _ _ => False
  end.

(** The handler panics. *)
Definition panics {A : Type} (m : M A) (ps : PlayState) : Prop :=
  match m ps with
  | Done _ _ _ => False
  | Panicked _ _ => True
  end.

(** The play state [setPlayState] leaves behind when it returns. *)
Definition after_setPlayState (state : State) (position : Duration)
           (ps : PlayState) : PlayState :=
  let position :=
    if State_ ps =? STATE_SEEKING then bufferingPosition ps else position in
  mkPlayState (Playlist ps) (Index ps) state (Volume ps)
    (if (state =? STATE_BUFFERING) || (state =? STATE_SEEKING)
     then position else -1)
    (State_ ps) (newVolume ps) (nextState ps).

Definition buffering_or_seeking (s : State) : Prop :=
  s = STATE_BUFFERING \/ s = STATE_SEEKING.

(** While buffering or seeking, [bufferingPosition] is a real position. *)
Definition position_inv (ps : PlayState) : Prop :=
  buffering_or_seeking (State_ ps) -> 0 <= bufferingPosition ps.

(** The state is one of the five states of the player. *)
Definition known_state (s : State) : Prop :=
  s = STATE_STOPPED \/ s = STATE_PLAYING \/ s = STATE_PAUSED
  \/ s = STATE_BUFFERING \/ s = STATE_SEEKING.

(** The invariant of the play state that every handler keeps.  The part
    on [bufferingPosition] rests on what callers pass as positions;
    [nonneg] says whether that is assumed. *)
Definition play_state_inv (nonneg : Prop) (ps : PlayState) : Prop :=
  known_state (State_ ps) /\ known_state (previousState ps)
  /\ (nonneg -> position_inv ps).

Definition coordinator_inv (nonneg : Prop) (c : Coordinator) : Prop :=
  match c with
  | Running ps => play_state_inv nonneg ps
  | _ => True
  end.

(** The positions a caller passes are non-negative. *)
Definition nonneg_positions (x : Input) : Prop :=
  match x with
  | Command (CallSetPlaystate _ _ position)
  | Command (CallSetVideo _ position)
  | Command (CallSeek position) => 0 <= position
  | _ => True
  end.

(** [bufferingPosition] is non-negative exactly in Buffering and Seeking, and
    [-1] in every other state. *)
Definition bufferingPosition_iff_buffering_or_seeking (c : Coordinator)
  : Prop :=
  match c with
  | Running ps =>
      (0 <= bufferingPosition ps <-> buffering_or_seeking (State_ ps))
      /\ (~ buffering_or_seeking (State_ ps) -> bufferingPosition ps = -1)
  | _ => True
  end.

(** The input is a [SetVolume] or a [ChangeVolume] call. *)
Definition volume_call (x : Input) : Prop :=
  match x with
  | Command (CallSetVolume _) | Command (CallChangeVolume _) => True
  | _ => False
  end.

(** The same, with the argument of [SetVolume] within 0..100. *)
Definition volume_call_within_range (x : Input) : Prop :=
  match x with
  | Command (CallSetVolume volume) => 0 <= volume <= 100
  | Command (CallChangeVolume _) => True
  | _ => False
  end.

(** The coordinator is running and its volume is within 0..100. *)
Definition volume_within_range (c : Coordinator) : Prop :=
  match c with
  | Running ps => 0 <= Volume ps <= 100
  | _ => False
  end.

(** The volume after one volume call, in the words of the volume property:
    [SetVolume] stores its argument as it is, [ChangeVolume] stores the sum
    of the volume and the delta (a Go [int]) clamped into 0..100. *)
Definition clamp_volume (volume : Z) : Z := Z.max 0 (Z.min 100 volume).

Definition volume_after_call (volume : Z) (x : Input) : Z :=
  match x with
  | Command (CallSetVolume v) => v
  | Command (CallChangeVolume delta) =>
      clamp_volume (GoInt.add volume delta)
  | _ => volume
  end.

(** ** Concrete runs *)

Definition three_volume_calls : list (option Duration * Input) :=
  [(None, Command (CallChangeVolume 30));
   (None, Command (CallSetVolume 40));
   (None, Command (CallChangeVolume (-70)))].

Definition SetVolume_150 : list (option Duration * Input) :=
  [(None, Command (CallSetVolume 150))].

(** Track A is playing; a seek to 7 is in flight when [Pause] is called;
    the backend then reports the seek as complete. *)
Definition pause_during_seek : list (option Duration * Input) :=
  [(None, Command (CallSetPlaystate ["A"] 0 0));
   (None, StreamResolved "A" "url" 0);
   (Some 0, PlayerEvent STATE_PLAYING);
   (None, Command (CallSeek 7));
   (None, Command CallPause);
   (None, PlayerEvent STATE_PLAYING)].

(** A playlist is set to start at position 5. *)
Definition start_at_5 : list (option Duration * Input) :=
  [(None, Command (CallSetPlaystate ["A"; "B"] 1 5))].

(** Track A, the only one, is playing.  A seek to 5 is in flight when the
    same track is selected again, which starts a stream resolution; the
    backend reports the seek as complete, and a second seek to 7 is in
    flight when the resolution comes back. *)
Definition seek_during_resolution : list (option Duration * Input) :=
  [(None, Command (CallSetPlaystate ["A"] 0 0));
   (None, StreamResolved "A" "url" 0);
   (Some 0, PlayerEvent STATE_PLAYING);
   (None, Command (CallSeek 5));
   (None, Command (CallSetVideo "A" 0));
   (Some 5, PlayerEvent STATE_PLAYING);
   (None, Command (CallSeek 7))].

(** Track B of the playlist A, B, C is playing. *)
Definition playing_B : PlayState :=
  mkPlayState ["A"; "B"; "C"] 1 STATE_PLAYING 80 (-1) STATE_BUFFERING
    false (-1).


(** Stopped, with a playlist that was cleared while the index was 2. *)
Definition stopped_at_2 : PlayState :=
  mkPlayState [] 2 STATE_STOPPED 80 (-1) STATE_PLAYING false (-1).

(** Track B of the playlist A, B is paused at volume 80. *)
Definition paused_B : PlayState :=
  mkPlayState ["A"; "B"] 1 STATE_PAUSED 80 (-1) STATE_PLAYING false (-1).

(** Track A of the playlist A, B is playing. *)
Definition playing_A : PlayState :=
  mkPlayState ["A"; "B"] 0 STATE_PLAYING 80 (-1) STATE_BUFFERING false (-1).

(** Track B of the playlist A, B is being buffered at position 0. *)
Definition buffering_B : PlayState :=
  mkPlayState ["A"; "B"] 1 STATE_BUFFERING 80 0 STATE_STOPPED false (-1).

(** Track A is played, then paused by the backend. *)
Definition play_then_pause : list (option Duration * Input) :=
  [(None, Command (CallSetPlaystate ["A"] 0 0));
   (None, StreamResolved "A" "url" 0);
   (Some 0, PlayerEvent STATE_PLAYING);
   (None, Command CallPause);
   (Some 3, PlayerEvent STATE_PAUSED)].

(** Track A is playing.  [Play] is called while a seek to 5 is in flight;
    the seek completes; the track is paused. *)
Definition play_during_seek_then_pause : list (option Duration * Input) :=
  [(None, Command (CallSetPlaystate ["A"] 0 0));
   (None, StreamResolved "A" "url" 0);
   (Some 0, PlayerEvent STATE_PLAYING);
   (None, Command (CallSeek 5));
   (None, Command CallPlay);
   (None, PlayerEvent STATE_PLAYING);
   (None, Command CallPause);
   (Some 6, PlayerEvent STATE_PAUSED)].

(** The first call on a new coordinator is an update to the empty
    playlist. *)
Definition update_to_empty : list (option Duration * Input) :=
  [(None, Command (CallUpdatePlaylist []))].

(** The play state of a new coordinator after [SetVolume(150)]. *)
Definition volume_150 : PlayState :=
  mkPlayState [] 0 STATE_STOPPED 150 0 STATE_STOPPED true (-1).

(** On a new coordinator, the playlist is updated to the empty one and
    then to the single track A. *)
Definition update_to_empty_then_A : list (option Duration * Input) :=
  [(None, Command (CallUpdatePlaylist []));
   (None, Command (CallUpdatePlaylist ["A"]))].

(** A playlist is set and [Stop] is called while its first track is being
    buffered; the playlist is then updated to the empty one. *)
Definition stop_while_buffering_then_update
  : list (option Duration * Input) :=
  [(None, Command (CallSetPlaystate ["A"] 0 0));
   (None, Command CallStop);
   (None, Command (CallUpdatePlaylist []))].

(** ** Safety: outcomes, invariant and assumptions *)

(** What holds of the outcome of a handler, whichever it is. *)
Definition outcome {A : Type} (m : M A)
           (Q : A -> PlayState -> list Effect -> Prop)
           (R : string -> list Effect -> Prop) (ps : PlayState) : Prop :=
  match m ps with
  | Done a ps' tr => Q a ps' tr
  | Panicked msg tr => R msg tr
  end.

(** What [nextState] may hold: nothing, or the target of a queued call. *)
Definition queued_state (s : State) : Prop :=
  s = -1 \/ s = STATE_PLAYING \/ s = STATE_PAUSED.

(** The index is not past the end of a playlist that has entries. *)
Definition index_below_length (ps : PlayState) : Prop :=
  Playlist ps = [] \/ Index ps < len (Playlist ps).

(** What the backend answers to [getPosition].  [nonneg]: a position it
    answers is assumed non-negative; [live]: it is assumed to answer. *)
Definition backend_ok (nonneg live : Prop) (p : option Duration) : Prop :=
  (nonneg -> match p with
             | Some position => 0 <= position
             | None => True
             end)
  /\ (live -> p <> None).

(** The invariant behind the safety properties.  [nonneg]: positions that
    callers and the backend give are assumed non-negative; [vol]: the
    volumes that [SetVolume] is given are assumed within 0..100. *)
Definition state_inv (nonneg vol : Prop) (ps : PlayState) : Prop :=
  known_state (State_ ps) /\ known_state (previousState ps)
  /\ queued_state (nextState ps)
  /\ (nonneg -> position_inv ps)
  /\ (vol -> 0 <= Volume ps <= 100).

Definition safe_inv (nonneg vol : Prop) (ps : PlayState) : Prop :=
  state_inv nonneg vol ps /\ index_below_length ps.

(** What is sent out is well-formed: a state change or a snapshot carries
    one of the five states and a non-negative position, a volume is within
    0..100 (or unset, for [play]). *)
Definition good_effect (nonneg vol : Prop) (e : Effect) : Prop :=
  match e with
  | SendStateChange state position =>
      known_state state /\ (nonneg -> 0 <= position)
  | SendPlaylist _ _ position state =>
      known_state state /\ 0 <= position
  | SendVolume volume | PlayerSetVolume volume => vol -> 0 <= volume <= 100
  | PlayerPlay _ _ volume => vol -> volume = -1 \/ 0 <= volume <= 100
  | _ => True
  end.

(** The panics of the coordinator: the three that a caller can cause,
    the backend's failure to tell the position unless it is assumed to
    answer, a negative position unless positions are assumed non-negative;
    never the two that guard the state machine, [unknown state] and
    [unknown nextState]. *)
Definition expected_panic (nonneg live : Prop) (msg : string) : Prop :=
  msg = "runtime error: index out of range"
  \/ msg = "current video does not exist in new playlist"
  \/ msg = "empty playlist while playing"
  \/ (msg = "getPosition: backend error" /\ ~ live)
  \/ (msg = "got position < 0" /\ ~ nonneg).

(** What is assumed of one input of the coordinator and of the backend
    during it. *)
Definition good_input (nonneg vol live : Prop) (x : option Duration * Input)
  : Prop :=
  (nonneg -> nonneg_positions (snd x))
  /\ backend_ok nonneg live (fst x)
  /\ (vol -> match snd x with
             | Command (CallSetVolume volume) => 0 <= volume <= 100
             | _ => True
             end).

Definition safe_coordinator (nonneg vol live : Prop) (c : Coordinator)
  : Prop :=
  match c with
  | Running ps => safe_inv nonneg vol ps
  | Closed => True
  | Crashed msg => expected_panic nonneg live msg
  end.

(** The handler keeps the invariant, sends only well-formed effects, and
    panics only with an expected message, the effects before the panic
    well-formed too. *)
Definition safe {A : Type} (nonneg vol live : Prop) (m : M A)
           (ps : PlayState) : Prop :=
  outcome m
    (fun _ ps' tr =>
       safe_inv nonneg vol ps' /\ Forall (good_effect nonneg vol) tr)
    (fun msg tr =>
       expected_panic nonneg live msg /\ Forall (good_effect nonneg vol) tr)
    ps.

(** The coordinator and the effects after some inputs. *)
Definition safe_result (nonneg vol live : Prop)
           (r : Coordinator * list Effect) : Prop :=
  safe_coordinator nonneg vol live (fst r)
  /\ Forall (good_effect nonneg vol) (snd r).

(** [New]: the coordinator once the main loop is started, with the initial
    volume that the backend's [initialize] answered. *)
Definition New (initialVolume : Z) : Coordinator :=
  Running (initial_PlayState initialVolume).

(** The positions of an input, the caller's and the backend's, are
    non-negative. *)
Definition nonneg_input (x : option Duration * Input) : Prop :=
  nonneg_positions (snd x)
  /\ match fst x with
     | Some position => 0 <= position
     | None => True
     end.


(** A volume that [SetVolume] is given is within 0..100. *)
Definition volume_input (x : option Duration * Input) : Prop :=
  match snd x with
  | Command (CallSetVolume volume) => 0 <= volume <= 100
  | _ => True
  end.

(** Track A is playing at position 9 when the playlist is requested. *)
Definition snapshot_while_playing : list (option Duration * Input) :=
  [(None, Command (CallSetPlaystate ["A"] 0 0));
   (None, StreamResolved "A" "url" 0);
   (Some 0, PlayerEvent STATE_PLAYING);
   (Some 9, Command CallRequestPlaylist)].

(** The first call on a new coordinator is a seek. *)
Definition seek_on_new_player : list (option Duration * Input) :=
  [(None, Command (CallSeek 3))].


(** The position [setPlayState] works with: the one it is given, or the
    target of the seek while the state is Seeking. *)
Definition reported_position (ps : PlayState) (position : Duration)
  : Duration :=
  if State_ ps =? STATE_SEEKING then bufferingPosition ps else position.

(** The first three tests of [SetPlaystate]: the state is Buffering at the
    position asked for and the index is below the length of the
    playlist. *)
Definition already_buffering_at (ps : PlayState) (position : Duration)
  : Prop :=
  State_ ps = STATE_BUFFERING /\ bufferingPosition ps = position
  /\ Index ps < len (Playlist ps).

(** A playlist is set, the resolution of the video answers [streamUrl] and
    the backend reports playing, at position [d]. *)
Definition set_resolve_play (playlist : list string) (index : Z)
           (position : Duration) (videoId streamUrl : string) (d : Duration)
  : list (option Duration * Input) :=
  [(None, Command (CallSetPlaystate playlist index position));
   (None, StreamResolved videoId streamUrl position);
   (Some d, PlayerEvent STATE_PLAYING)].

(** [Pause], then the backend reports paused at [p1]; [Play], then the
    backend reports playing at [p2]. *)
Definition pause_then_resume (p1 p2 : Duration)
  : list (option Duration * Input) :=
  [(None, Command CallPause);
   (Some p1, PlayerEvent STATE_PAUSED);
   (None, Command CallPlay);
   (Some p2, PlayerEvent STATE_PLAYING)].

(** A seek to [t]; the backend reports it as complete. *)
Definition seek_and_complete (t : Duration)
  : list (option Duration * Input) :=
  [(None, Command (CallSeek t));
   (None, PlayerEvent STATE_PLAYING)].

(** A seek to [t] with [c] called while it is in flight; the backend reports
    the seek as complete, then reports [event] at position [q]. *)
Definition seek_with_queued (t : Duration) (c : Call) (event : State)
           (q : Duration) : list (option Duration * Input) :=
  [(None, Command (CallSeek t));
   (None, Command c);
   (None, PlayerEvent STATE_PLAYING);
   (Some q, PlayerEvent event)].

(** [Stop]; the backend reports stopped. *)
Definition stop_then_stopped : list (option Duration * Input) :=
  [(None, Command CallStop);
   (None, PlayerEvent STATE_STOPPED)].

(** * Properties *)

(** ** Go integers and slices *)

Lemma wrap_id z : GoInt.in_range z -> GoInt.wrap z = z.
Proof.
  unfold GoInt.in_range, GoInt.wrap, GoInt.min_int, GoInt.max_int. intros H.
  rewrite Z.mod_small by lia. lia.
Qed.

Lemma len_nonneg {A : Type} (s : list A) : 0 <= len s.
Proof. unfold len. lia. Qed.

Lemma slice_get_Some {A : Type} (s : list A) i v :
  slice_get s i = Some v -> 0 <= i < len s.
Proof.
  unfold slice_get, len. destruct (Z.ltb_spec i 0); [discriminate|].
  intros E. assert (Hn : nth_error s (Z.to_nat i) <> None) by congruence.
  apply nth_error_Some in Hn. lia.
Qed.

Lemma slice_get_None {A : Type} (s : list A) i :
  slice_get s i = None <-> (i < 0 \/ len s <= i).
Proof.
  unfold slice_get, len. destruct (Z.ltb_spec i 0).
  - split; [intros _; lia | reflexivity].
  - rewrite nth_error_None. lia.
Qed.

(** ** Rules of the weakest precondition *)

Lemma wp_ret {A : Type} (a : A) Q ps : Q a ps -> wp (ret a) Q ps.
Proof. exact (fun H => H). Qed.

Lemma wp_panic {A : Type} msg (Q : A -> PlayState -> Prop) ps :
  wp (panic msg) Q ps.
Proof. exact I. Qed.

Lemma wp_get Q ps : Q ps ps -> wp get Q ps.
Proof. exact (fun H => H). Qed.

Lemma wp_modify f Q ps : Q tt (f ps) -> wp (modify f) Q ps.
Proof. exact (fun H => H). Qed.

Lemma wp_emit e Q ps : Q tt ps -> wp (emit e) Q ps.
Proof. exact (fun H => H). Qed.

Lemma wp_bind {A B : Type} (m : M A) (f : A -> M B) Q ps :
  wp m (fun a ps' => wp (f a) Q ps') ps -> wp (bind m f) Q ps.
Proof.
  unfold wp, bind. destruct (m ps) as [a ps1 tr1|]; [|trivial].
  destruct (f a ps1); trivial.
Qed.

Lemma wp_mono {A : Type} (m : M A) (Q Q' : A -> PlayState -> Prop) ps :
  wp m Q ps -> (forall a ps', Q a ps' -> Q' a ps') -> wp m Q' ps.
Proof. unfold wp. destruct (m ps); auto. Qed.

(** ** Rules for handlers that return *)

Lemma returns_ret {A : Type} (a : A) Q ps : Q a ps [] -> returns (ret a) Q ps.
Proof. exact (fun H => H). Qed.

Lemma returns_get Q ps : Q ps ps [] -> returns get Q ps.
Proof. exact (fun H => H). Qed.

Lemma returns_modify f Q ps : Q tt (f ps) [] -> returns (modify f) Q ps.
Proof. exact (fun H => H). Qed.

Lemma returns_emit e Q ps : Q tt ps [e] -> returns (emit e) Q ps.
Proof. exact (fun H => H). Qed.

Lemma returns_bind {A B : Type} (m : M A) (f : A -> M B) Q ps :
  returns m (fun a ps1 tr1 =>
               returns (f a) (fun b ps2 tr2 => Q b ps2 (tr1 ++ tr2)) ps1) ps ->
  returns (bind m f) Q ps.
Proof.
  unfold returns, bind. destruct (m ps) as [a ps1 tr1|]; [|trivial].
  destruct (f a ps1); trivial.
Qed.

Lemma returns_Done (m : M unit) ps ps' tr :
  returns m (fun _ ps1 tr1 => ps1 = ps' /\ tr1 = tr) ps ->
  m ps = Done tt ps' tr.
Proof.
  unfold returns. destruct (m ps) as [[] ps1 tr1|]; [|contradiction].
  now intros [-> ->].
Qed.

Lemma returns_exists {A : Type} (m : M A) Q ps :
  returns m Q ps -> exists a ps' tr, m ps = Done a ps' tr /\ Q a ps' tr.
Proof.
  unfold returns. destruct (m ps) as [a ps1 tr1|]; [|contradiction].
  intros H. now exists a, ps1, tr1.
Qed.

(** ** Handlers that panic *)

Lemma panics_exists {A : Type} (m : M A) ps :
  panics m ps -> exists msg tr, m ps = Panicked msg tr.
Proof.
  unfold panics. destruct (m ps) as [|msg tr]; [contradiction|].
  intros _. now exists msg, tr.
Qed.

(** ** Tactics *)

(** Boolean tests of the handlers as propositions. *)
Ltac tests :=
  repeat match goal with
    | H : (_ || _) = true |- _ => apply orb_true_iff in H
    | H : (_ || _) = false |- _ => apply orb_false_iff in H; destruct H
    | H : (_ && _) = true |- _ => apply andb_true_iff in H; destruct H
    | H : (_ && _) = false |- _ => apply andb_false_iff in H
    | H : negb _ = true |- _ => apply negb_true_iff in H
    | H : negb _ = false |- _ => apply negb_false_iff in H
    | H : (_ =? _)%Z = true |- _ => apply Z.eqb_eq in H
    | H : (_ =? _)%Z = false |- _ => apply Z.eqb_neq in H
    | H : (_ <? _)%Z = true |- _ => apply Z.ltb_lt in H
    | H : (_ <? _)%Z = false |- _ => apply Z.ltb_ge in H
    | H : (_ <=? _)%Z = true |- _ => apply Z.leb_le in H
    | H : (_ <=? _)%Z = false |- _ => apply Z.leb_gt in H
    | H : (_ =? _)%string = true |- _ => apply String.eqb_eq in H
    | H : (_ =? _)%string = false |- _ => apply String.eqb_neq in H
    end.

(** Projections of updated play states. *)
Ltac fields :=
  cbn [Playlist Index State_ Volume bufferingPosition previousState
       newVolume nextState set_Playlist set_Index set_State set_Volume
       set_bufferingPosition set_previousState set_newVolume set_nextState]
    in *.

(** One step of symbolic execution of a handler under [wp]. *)
Ltac wp_step :=
  lazymatch goal with
  | |- wp (bind _ _) _ _ => apply wp_bind
  | |- wp (ret _) _ _ => apply wp_ret
  | |- wp (panic _) _ _ => apply wp_panic
  | |- wp get _ _ => apply wp_get
  | |- wp (modify _) _ _ => apply wp_modify
  | |- wp (emit _) _ _ => apply wp_emit
  | |- wp (if ?b then _ else _) _ _ => destruct b eqn:?
  | |- wp (match ?o with Some _ => _ | None => _ end) _ _ => destruct o eqn:?
  | |- wp (let '(_, _) := ?x in _) _ _ => destruct x eqn:?
  end.

Ltac wp_run := repeat (wp_step; fields).

(** The numeric values of the state constants. *)
Ltac states :=
  unfold STATE_STOPPED, STATE_PLAYING, STATE_PAUSED, STATE_BUFFERING,
    STATE_SEEKING in *.

(** Close a branch whose tests contradict the hypotheses. *)
Ltac absurd_branch :=
  exfalso;
  first [ match goal with
          | H : _ = true |- _ => cbn in H; discriminate H
          | H : _ = false |- _ => cbn in H; discriminate H
          end
        | tests; states;
          first [ lia | congruence | tauto
                | repeat match goal with
                    | H : _ \/ _ |- _ => destruct H
                    end; first [ lia | congruence ] ] ].

(** One step of symbolic execution of a handler that returns; a test is
    split, and a branch the hypotheses exclude is closed. *)
Ltac returns_step :=
  lazymatch goal with
  | |- returns (bind _ _) _ _ => apply returns_bind
  | |- returns (ret _) _ _ => apply returns_ret
  | |- returns get _ _ => apply returns_get
  | |- returns (modify _) _ _ => apply returns_modify
  | |- returns (emit _) _ _ => apply returns_emit
  | |- returns (if ?b then _ else _) _ _ =>
      destruct b eqn:?; try solve [absurd_branch]
  | |- returns (match ?o with Some _ => _ | None => _ end) _ _ =>
      destruct o eqn:?; try solve [absurd_branch]
  | |- returns (let '(_, _) := ?x in _) _ _ => destruct x eqn:?
  end.

(** Replace the tests whose outcome is a hypothesis. *)
Ltac known_tests :=
  repeat match goal with
    | H : ?b = true |- context [?b] => rewrite H
    | H : ?b = false |- context [?b] => rewrite H
    end.

Ltac returns_run := repeat (returns_step; fields; known_tests).

(** The final play state and trace of a run are the stated ones. *)
Ltac returns_done :=
  split; first [ reflexivity | cbn; congruence ].

(** Use the specification [lem] of a handler that is called. *)
Ltac wp_call lem :=
  eapply wp_mono; [ apply lem | cbv beta; intros ].

(** Close a goal on the invariant of the play state. *)
Ltac inv_solve :=
  unfold play_state_inv, known_state, position_inv, buffering_or_seeking,
    after_setPlayState in *;
  fields; tests; states;
  repeat match goal with
    | |- context [if ?b then _ else _] => destruct b eqn:?; tests
    end;
  repeat match goal with
    | H : _ /\ _ |- _ => destruct H
    end;
  repeat match goal with
    | |- _ /\ _ => split
    end;
  intros;
  repeat match goal with
    | Hn : ?P, H : ?P -> _ |- _ => specialize (H Hn)
    end;
  try tauto; try lia.

(** Unfold the handlers down to the monad's matches. *)
Ltac exec :=
  cbv [step call callback_of getPlayState run_select_event prefetchVideoStream
       Quit SetPlaystate UpdatePlaylist updatePlaylist SetVideo
       setPlaylistIndex RequestPlaylist Pause Play Seek SetVolume
       ChangeVolume applyVolume RequestVolume Stop stop run_event nextVideo
       startPlaying startPlaying_resolved prefetchVideoStream_callback
       setPlayState getPosition
       bind get modify emit ret panic index_or_panic];
  fields.

(** ** What the handlers preserve *)

Lemma getPosition_wp p ps :
  wp (getPosition p) (fun position ps' => ps' = ps /\ 0 <= position) ps.
Proof.
  unfold getPosition. wp_run; tests; auto.
Qed.

Lemma setPlayState_wp p state position ps :
  wp (setPlayState p state position)
     (fun _ ps' => ps' = after_setPlayState state position ps) ps.
Proof.
  unfold setPlayState, after_setPlayState.
  wp_run; try reflexivity;
    (eapply wp_mono; [apply getPosition_wp|];
     intros a ps' [-> _]; wp_step; reflexivity).
Qed.

Section Invariant.

(** Whether the callers' positions are assumed non-negative. *)
Variable nonneg : Prop.

Lemma setPlayState_inv p state position ps :
  play_state_inv nonneg ps ->
  known_state state ->
  (nonneg -> 0 <= position) \/ State_ ps = STATE_SEEKING
  \/ ~ buffering_or_seeking state ->
  wp (setPlayState p state position) (fun _ => play_state_inv nonneg) ps.
Proof.
  intros Hinv Hstate Hpos.
  eapply wp_mono; [apply setPlayState_wp|]. intros _ ps' ->.
  inv_solve.
Qed.

Lemma startPlaying_inv p position ps :
  play_state_inv nonneg ps -> (nonneg -> 0 <= position) ->
  wp (startPlaying p position) (fun _ => play_state_inv nonneg) ps.
Proof.
  intros Hinv Hpos. unfold startPlaying, index_or_panic.
  wp_run;
    (wp_call setPlayState_inv;
     [assumption | inv_solve | auto | wp_run; assumption]).
Qed.

Lemma nextVideo_inv p ps :
  play_state_inv nonneg ps ->
  wp (nextVideo p) (fun _ => play_state_inv nonneg) ps.
Proof.
  intros Hinv. unfold nextVideo. wp_run.
  - apply startPlaying_inv; [inv_solve | lia].
  - apply setPlayState_inv;
      [assumption | inv_solve | right; right; inv_solve].
Qed.

Lemma startPlaying_resolved_inv p videoId streamUrl position ps :
  play_state_inv nonneg ps ->
  wp (startPlaying_resolved p videoId streamUrl position)
     (fun _ => play_state_inv nonneg) ps.
Proof.
  intros Hinv. unfold startPlaying_resolved. wp_run; try assumption.
  apply nextVideo_inv; assumption.
Qed.

Lemma prefetchVideoStream_callback_inv videoId ps :
  play_state_inv nonneg ps ->
  wp (prefetchVideoStream_callback videoId)
     (fun _ => play_state_inv nonneg) ps.
Proof.
  intros Hinv. unfold prefetchVideoStream_callback. wp_run; assumption.
Qed.

Lemma setPlaylistIndex_inv videoId ps :
  play_state_inv nonneg ps ->
  wp (setPlaylistIndex videoId) (fun _ => play_state_inv nonneg) ps.
Proof. intros Hinv. unfold setPlaylistIndex. wp_run; assumption. Qed.

Lemma updatePlaylist_inv playlist ps :
  play_state_inv nonneg ps ->
  wp (updatePlaylist playlist) (fun _ => play_state_inv nonneg) ps.
Proof.
  intros Hinv. unfold updatePlaylist, index_or_panic. wp_run; try assumption.
  wp_call setPlaylistIndex_inv; [assumption | wp_run; assumption].
Qed.

Lemma stop_inv ps :
  play_state_inv nonneg ps -> wp stop (fun _ => play_state_inv nonneg) ps.
Proof. intros Hinv. unfold stop. wp_run; assumption. Qed.

Lemma SetPlaystate_inv p playlist index position ps :
  play_state_inv nonneg ps -> (nonneg -> 0 <= position) ->
  wp (SetPlaystate p playlist index position)
     (fun _ => play_state_inv nonneg) ps.
Proof.
  intros Hinv Hpos. unfold SetPlaystate, index_or_panic.
  wp_run;
    first [ apply updatePlaylist_inv; assumption
          | apply startPlaying_inv; assumption
          | apply stop_inv; assumption ].
Qed.

Lemma SetVideo_inv p videoId position ps :
  play_state_inv nonneg ps -> (nonneg -> 0 <= position) ->
  wp (SetVideo p videoId position) (fun _ => play_state_inv nonneg) ps.
Proof.
  intros Hinv Hpos. unfold SetVideo. wp_step.
  wp_call setPlaylistIndex_inv; [assumption|].
  apply startPlaying_inv; assumption.
Qed.

Lemma RequestPlaylist_inv p ps :
  play_state_inv nonneg ps ->
  wp (RequestPlaylist p) (fun _ => play_state_inv nonneg) ps.
Proof.
  intros Hinv. unfold RequestPlaylist. wp_run.
  wp_call getPosition_wp.
  match goal with H : _ = _ /\ _ |- _ => destruct H as [-> _] end.
  wp_run. assumption.
Qed.

Lemma Pause_inv ps :
  play_state_inv nonneg ps -> wp Pause (fun _ => play_state_inv nonneg) ps.
Proof. intros Hinv. unfold Pause. wp_run; inv_solve. Qed.

Lemma Play_inv p ps :
  play_state_inv nonneg ps ->
  wp (Play p) (fun _ => play_state_inv nonneg) ps.
Proof.
  intros Hinv. unfold Play.
  wp_run; try (apply startPlaying_inv; [assumption|lia]); inv_solve.
Qed.

Lemma Seek_inv p position ps :
  play_state_inv nonneg ps -> (nonneg -> 0 <= position) ->
  wp (Seek p position) (fun _ => play_state_inv nonneg) ps.
Proof.
  intros Hinv Hpos. unfold Seek. wp_run; try assumption.
  - apply startPlaying_inv; assumption.
  - wp_call setPlayState_inv;
      [assumption | inv_solve | auto | wp_run; assumption].
Qed.

Lemma applyVolume_inv ps :
  play_state_inv nonneg ps ->
  wp applyVolume (fun _ => play_state_inv nonneg) ps.
Proof. intros Hinv. unfold applyVolume. wp_run; inv_solve. Qed.

Lemma SetVolume_inv volume ps :
  play_state_inv nonneg ps ->
  wp (SetVolume volume) (fun _ => play_state_inv nonneg) ps.
Proof.
  intros Hinv. unfold SetVolume. wp_run. apply applyVolume_inv. inv_solve.
Qed.

Lemma ChangeVolume_inv delta ps :
  play_state_inv nonneg ps ->
  wp (ChangeVolume delta) (fun _ => play_state_inv nonneg) ps.
Proof.
  intros Hinv. unfold ChangeVolume. wp_run; apply applyVolume_inv; inv_solve.
Qed.

Lemma RequestVolume_inv ps :
  play_state_inv nonneg ps ->
  wp RequestVolume (fun _ => play_state_inv nonneg) ps.
Proof. intros Hinv. unfold RequestVolume. wp_run; assumption. Qed.

Lemma Quit_inv ps :
  play_state_inv nonneg ps -> wp Quit (fun _ => play_state_inv nonneg) ps.
Proof. intros Hinv. unfold Quit. wp_run; assumption. Qed.

Lemma run_event_inv p event ps :
  play_state_inv nonneg ps ->
  wp (run_event p event) (fun _ => play_state_inv nonneg) ps.
Proof.
  intros Hinv. unfold run_event. wp_run; try assumption.
  all: try (apply nextVideo_inv; assumption).
  all: try (apply setPlayState_inv;
            [ assumption
            | solve [inv_solve]
            | first [ solve [right; left; inv_solve]
                    | solve [right; right; inv_solve] ] ]).
  all: inv_solve.
Qed.

Lemma getPlayState_inv callback c :
  (forall ps, play_state_inv nonneg ps ->
              wp callback (fun _ => play_state_inv nonneg) ps) ->
  coordinator_inv nonneg c ->
  coordinator_inv nonneg (fst (getPlayState callback c)).
Proof.
  intros Hcb Hc. destruct c as [ps| |msg]; cbn; trivial.
  specialize (Hcb ps Hc). unfold wp in Hcb.
  destruct (callback ps); cbn; trivial.
Qed.

Lemma step_inv c x :
  (nonneg -> nonneg_positions (snd x)) ->
  coordinator_inv nonneg c ->
  coordinator_inv nonneg (fst (step c x)).
Proof.
  destruct x as [p input]. cbn [snd]. intros Hpos Hc.
  destruct input as [cmd|videoId streamUrl position|videoId|event|];
    cbn [step].
  - apply getPlayState_inv; [|assumption]. intros ps Hps.
    destruct cmd; cbn [callback_of]; cbn in Hpos.
    + now apply Quit_inv.
    + now apply SetPlaystate_inv.
    + now apply updatePlaylist_inv.
    + now apply SetVideo_inv.
    + now apply RequestPlaylist_inv.
    + now apply Pause_inv.
    + now apply Play_inv.
    + now apply Seek_inv.
    + now apply SetVolume_inv.
    + now apply ChangeVolume_inv.
    + now apply RequestVolume_inv.
    + now apply stop_inv.
  - apply getPlayState_inv; [|assumption]. intros ps Hps.
    now apply startPlaying_resolved_inv.
  - unfold prefetchVideoStream.
    destruct (videoId =? "")%string; [assumption|].
    apply getPlayState_inv; [|assumption]. intros ps Hps.
    now apply prefetchVideoStream_callback_inv.
  - destruct c as [ps| |msg]; cbn; trivial.
    pose proof (run_event_inv p event ps Hc) as H. unfold wp in H.
    destruct (run_event p event ps); cbn; trivial.
  - destruct c; cbn; trivial.
Qed.

Lemma steps_inv xs : forall c,
  Forall (fun x => nonneg -> nonneg_positions (snd x)) xs ->
  coordinator_inv nonneg c ->
  coordinator_inv nonneg (fst (steps c xs)).
Proof.
  induction xs as [|x xs IH]; intros c Hxs Hc; cbn [steps].
  - assumption.
  - inversion Hxs as [|? ? Hx Hxs']; subst.
    pose proof (step_inv c x Hx Hc) as H1.
    destruct (step c x) as [c1 tr1]. cbn [fst] in H1.
    specialize (IH c1 Hxs' H1).
    destruct (steps c1 xs) as [c2 tr2]. exact IH.
Qed.

End Invariant.

Lemma initial_PlayState_inv nonneg initialVolume :
  coordinator_inv nonneg (Running (initial_PlayState initialVolume)).
Proof. cbv. intuition discriminate. Qed.

(** ** Volume *)

Lemma ChangeVolume_clamps delta ps :
  returns (ChangeVolume delta) (fun _ ps' _ => 0 <= Volume ps' <= 100) ps.
Proof.
  unfold ChangeVolume, applyVolume. returns_run; tests; lia.
Qed.

(** [ChangeVolume] leaves the volume within 0..100 whatever the volume
    and the delta were, also when their sum wraps around. *)
Theorem ChangeVolume_always_clamps p ps delta :
  exists ps',
    fst (step (Running ps) (p, Command (CallChangeVolume delta)))
    = Running ps'
    /\ 0 <= Volume ps' <= 100.
Proof.
  destruct (returns_exists _ _ _ (ChangeVolume_clamps delta ps))
    as ([] & ps' & tr & E & H).
  exists ps'. cbn [step]. unfold call, getPlayState. cbn [callback_of].
  rewrite E. now split.
Qed.

Lemma SetVolume_stores volume ps :
  returns (SetVolume volume) (fun _ ps' _ => Volume ps' = volume) ps.
Proof.
  unfold SetVolume, applyVolume. returns_run; reflexivity.
Qed.

Lemma getPlayState_returns callback (Q : PlayState -> Prop) ps :
  returns callback (fun _ ps' _ => Q ps') ps ->
  exists ps', fst (getPlayState callback (Running ps)) = Running ps' /\ Q ps'.
Proof.
  unfold returns. cbn [getPlayState].
  destruct (callback ps) as [a ps' tr|]; [|contradiction].
  intros H. now exists ps'.
Qed.

Lemma ChangeVolume_stores delta ps :
  returns (ChangeVolume delta)
    (fun _ ps' _ =>
       Volume ps' = clamp_volume (GoInt.add (Volume ps) delta)) ps.
Proof.
  unfold ChangeVolume, applyVolume, clamp_volume. returns_run; tests; lia.
Qed.

(** One volume call, whatever the play state: the coordinator goes on and
    the volume is the one the call asks for. *)
Lemma volume_call_step ps x :
  volume_call (snd x) ->
  exists ps',
    fst (step (Running ps) x) = Running ps'
    /\ Volume ps' = volume_after_call (Volume ps) (snd x).
Proof.
  destruct x as [p [[]| | | |]]; cbn [snd volume_call volume_after_call];
    try contradiction; intros _; unfold step, call; cbn [callback_of].
  - exact (getPlayState_returns _ _ _ (SetVolume_stores volume ps)).
  - exact (getPlayState_returns _ _ _ (ChangeVolume_stores delta ps)).
Qed.

(** After volume calls whose [SetVolume] arguments are within 0..100, the
    last one leaves the volume within 0..100, whatever it was before. *)
Lemma volume_after_calls_within_range inputs : forall volume,
  inputs <> [] ->
  Forall volume_call_within_range inputs ->
  0 <= fold_left volume_after_call inputs volume <= 100.
Proof.
  induction inputs as [|x inputs IH]; intros volume Hne Hin;
    [congruence|].
  inversion Hin as [|? ? Hx Hin']; subst. cbn [fold_left].
  destruct inputs as [|y inputs].
  - cbn [fold_left].
    destruct x as [[]| | | |]; cbn [volume_call_within_range] in Hx;
      try contradiction; cbn [volume_after_call]; unfold clamp_volume; lia.
  - apply IH; [discriminate|exact Hin'].
Qed.

(** C1, as the code has it.  After every sequence of [SetVolume] and
    [ChangeVolume] calls, on whatever play state, the coordinator is
    running and the volume is what the calls make of it one after the
    other: [SetVolume] stores its argument as it is, [ChangeVolume] stores
    the sum of the volume and the delta clamped into 0..100.  So if there
    is a call, and the arguments of the [SetVolume] calls are within
    0..100, the volume is within 0..100, whatever it was before. *)
Theorem volume_within_range_after_calls xs : forall ps,
  Forall (fun x => volume_call (snd x)) xs ->
  exists ps',
    fst (steps (Running ps) xs) = Running ps'
    /\ Volume ps' = fold_left volume_after_call (map snd xs) (Volume ps)
    /\ (xs <> [] ->
        Forall (fun x => volume_call_within_range (snd x)) xs ->
        0 <= Volume ps' <= 100).
Proof.
  assert (Hrun : forall ps,
            Forall (fun x => volume_call (snd x)) xs ->
            exists ps',
              fst (steps (Running ps) xs) = Running ps'
              /\ Volume ps'
                 = fold_left volume_after_call (map snd xs) (Volume ps)).
  { induction xs as [|x xs IH]; intros ps Hxs; cbn [steps map fold_left].
    - now exists ps.
    - inversion Hxs as [|? ? Hx Hxs']; subst.
      destruct (volume_call_step ps x Hx) as (ps1 & E1 & H1).
      destruct (step (Running ps) x) as [c1 tr1]. cbn [fst] in E1. subst c1.
      destruct (IH ps1 Hxs') as (ps' & E & H).
      destruct (steps (Running ps1) xs) as [c2 tr2]. cbn [fst] in *.
      exists ps'. split; [exact E|]. now rewrite <- H1. }
  intros ps Hxs. destruct (Hrun ps Hxs) as (ps' & E & H).
  exists ps'. split; [exact E|]. split; [exact H|].
  intros Hne Hin. rewrite H. apply volume_after_calls_within_range.
  - destruct xs; [congruence|discriminate].
  - apply Forall_map. exact Hin.
Qed.

Lemma volume_within_range_after_calls_witness :
  Forall (fun x => volume_call (snd x)) three_volume_calls
  /\ exists ps',
      fst (steps (Running volume_150) three_volume_calls) = Running ps'
      /\ Volume ps'
         = fold_left volume_after_call (map snd three_volume_calls)
             (Volume volume_150)
      /\ (three_volume_calls <> [] ->
          Forall (fun x => volume_call_within_range (snd x))
                 three_volume_calls ->
          0 <= Volume ps' <= 100).
Proof.
  assert (H0 : Forall (fun x => volume_call (snd x)) three_volume_calls)
    by (repeat constructor).
  exact (conj H0 (volume_within_range_after_calls three_volume_calls
                    volume_150 H0)).
Defined.

(** C1 fails as stated: [SetVolume] does not clamp.  One call
    [SetVolume(150)] on the initial play state leaves the volume at 150,
    and 150 is what the caller is told. *)
Lemma SetVolume_does_not_clamp :
  Forall (fun x => volume_call (snd x)) SetVolume_150
  /\ steps (Running (initial_PlayState 80)) SetVolume_150
     = (Running (mkPlayState [] 0 STATE_STOPPED 150 0 STATE_STOPPED true (-1)),
        [SendVolume 150])
  /\ ~ volume_within_range
         (fst (steps (Running (initial_PlayState 80)) SetVolume_150)).
Proof.
  split; [repeat constructor|]. split; [reflexivity|].
  cbn. lia.
Qed.

(** ** The buffering position *)

(** C2, as the code has it: at every observation point (after any
    sequence of method calls, resolution results, prefetch wake-ups and
    backend events, from the initial play state), if the state is Buffering
    or Seeking then [bufferingPosition] is non-negative, provided the
    positions that callers pass are non-negative. *)
Theorem bufferingPosition_nonneg_while_buffering_or_seeking
        initialVolume xs ps :
  Forall (fun x => nonneg_positions (snd x)) xs ->
  fst (steps (Running (initial_PlayState initialVolume)) xs) = Running ps ->
  buffering_or_seeking (State_ ps) ->
  0 <= bufferingPosition ps.
Proof.
  intros Hxs Hrun.
  assert (Hxs' : Forall (fun x => True -> nonneg_positions (snd x)) xs).
  { eapply Forall_impl; [|exact Hxs]. auto. }
  pose proof (steps_inv True xs _ Hxs'
                (initial_PlayState_inv True initialVolume)) as H.
  rewrite Hrun in H. exact (proj2 (proj2 H) I).
Qed.

Lemma bufferingPosition_nonneg_while_buffering_or_seeking_witness :
  Forall (fun x => nonneg_positions (snd x)) start_at_5
  /\ fst (steps (Running (initial_PlayState 80)) start_at_5)
     = Running (mkPlayState ["A"; "B"] 1 STATE_BUFFERING 80 5 STATE_STOPPED
                  false (-1))
  /\ buffering_or_seeking STATE_BUFFERING
  /\ 0 <= bufferingPosition
            (mkPlayState ["A"; "B"] 1 STATE_BUFFERING 80 5 STATE_STOPPED
               false (-1)).
Proof.
  assert (H0 : Forall (fun x => nonneg_positions (snd x)) start_at_5)
    by (repeat constructor; cbn; lia).
  assert (H1 : fst (steps (Running (initial_PlayState 80)) start_at_5)
               = Running (mkPlayState ["A"; "B"] 1 STATE_BUFFERING 80 5
                            STATE_STOPPED false (-1)))
    by reflexivity.
  assert (H2 : buffering_or_seeking STATE_BUFFERING) by (left; reflexivity).
  exact (conj H0 (conj H1 (conj H2
    (bufferingPosition_nonneg_while_buffering_or_seeking 80 start_at_5 _
       H0 H1 H2)))).
Defined.

(** C2 fails as stated: when the backend reports a seek as complete and a
    pause was queued meanwhile, [run] restores the previous state without
    [setPlayState]; the handler ends in state Playing with
    [bufferingPosition] still 7, not -1. *)
Lemma bufferingPosition_kept_after_queued_pause :
  Forall (fun x => nonneg_positions (snd x)) pause_during_seek
  /\ fst (steps (Running (initial_PlayState 80)) pause_during_seek)
     = Running (mkPlayState ["A"] 0 STATE_PLAYING 80 7 STATE_PLAYING
                  false (-1))
  /\ ~ bufferingPosition_iff_buffering_or_seeking
         (fst (steps (Running (initial_PlayState 80)) pause_during_seek)).
Proof.
  split; [repeat constructor; cbn; lia|]. split; [reflexivity|].
  cbn. unfold buffering_or_seeking. cbn. intros [[H _] _].
  destruct H as [H|H]; [lia | discriminate H | discriminate H].
Qed.

(** Nor is it [-1] before the first transition: [run] starts from the zero
    value, so an ignored [Pause] leaves state Stopped with
    [bufferingPosition] 0. *)
Lemma bufferingPosition_initially_zero :
  fst (step (Running (initial_PlayState 80)) (None, Command CallPause))
  = Running (mkPlayState [] 0 STATE_STOPPED 80 0 STATE_STOPPED false (-1)).
Proof. reflexivity. Qed.

(** ** The end of a track *)

Lemma nextVideo_advances p ps next :
  slice_get (Playlist ps) (Index ps + 1) = Some next ->
  GoInt.in_range (len (Playlist ps)) ->
  nextVideo p ps
  = Done tt
      (mkPlayState (Playlist ps) (Index ps + 1) STATE_BUFFERING (Volume ps) 0
         STATE_STOPPED (newVolume ps) (nextState ps))
      [SendStateChange STATE_BUFFERING 0; GoGetStream next 0].
Proof.
  intros Hnext Hlen. pose proof (slice_get_Some _ _ _ Hnext) as Hidx.
  assert (Hadd : GoInt.add (Index ps) 1 = Index ps + 1).
  { apply wrap_id. unfold GoInt.in_range, GoInt.min_int, GoInt.max_int in *.
    lia. }
  apply returns_Done.
  unfold nextVideo, startPlaying, setPlayState, index_or_panic.
  do 2 returns_step. rewrite Hadd.
  returns_run. returns_done.
Qed.

Lemma nextVideo_at_the_end p ps :
  Index ps + 1 = len (Playlist ps) ->
  GoInt.in_range (len (Playlist ps)) ->
  State_ ps <> STATE_SEEKING ->
  nextVideo p ps
  = Done tt
      (mkPlayState (Playlist ps) (Index ps) STATE_STOPPED (Volume ps) (-1)
         (State_ ps) (newVolume ps) (nextState ps))
      [SendStateChange STATE_STOPPED 0].
Proof.
  intros Hlast Hlen Hst.
  assert (Hadd : GoInt.add (Index ps) 1 = Index ps + 1).
  { apply wrap_id. rewrite Hlast. exact Hlen. }
  apply Z.eqb_neq in Hst.
  apply returns_Done.
  unfold nextVideo, startPlaying, setPlayState, index_or_panic.
  do 2 returns_step. rewrite Hadd.
  returns_run. returns_done.
Qed.

(** The backend's "stopped" event while Playing or Paused runs
    [nextVideo]. *)
Lemma run_event_stopped p ps :
  State_ ps = STATE_PLAYING \/ State_ ps = STATE_PAUSED ->
  run_event p STATE_STOPPED ps = nextVideo p ps.
Proof.
  intros Hst.
  assert (E : (State_ ps =? STATE_BUFFERING) = false)
    by (apply Z.eqb_neq; destruct Hst as [H|H]; rewrite H; discriminate).
  unfold run_event.
  change (STATE_STOPPED =? STATE_PLAYING) with false.
  change (STATE_STOPPED =? STATE_PAUSED) with false.
  change (STATE_STOPPED =? STATE_STOPPED) with true.
  cbv beta iota. unfold bind, get. cbv beta iota. rewrite E.
  destruct (nextVideo p ps); reflexivity.
Qed.

(** C3 at the failing input: track A is the last one, a seek to 7 is in
    flight, and the stream resolution for A comes back empty.  The state
    becomes Stopped and the playlist is kept, but the event carries the
    seek position 7, not 0. *)
Theorem empty_stream_url_while_seeking :
  fst (steps (Running (initial_PlayState 80)) seek_during_resolution)
  = Running (mkPlayState ["A"] 0 STATE_SEEKING 80 7 STATE_PLAYING false (-1))
  /\ step (Running (mkPlayState ["A"] 0 STATE_SEEKING 80 7 STATE_PLAYING
                      false (-1)))
          (None, StreamResolved "A" "" 0)
     = (Running (mkPlayState ["A"] 0 STATE_STOPPED 80 (-1) STATE_SEEKING
                   false (-1)),
        [Log "WARNING: empty stream URL"; SendStateChange STATE_STOPPED 7]).
Proof. split; reflexivity. Qed.

(** ** Relocating the current track in a new playlist *)

(** Once an occurrence is found, the loop only looks for a duplicate. *)
Lemma setPlaylistIndex_loop_found videoId rest i found :
  0 <= found ->
  setPlaylistIndex_loop videoId rest i found
  = (found, negb (count_occ string_dec rest videoId =? 0)%nat).
Proof.
  intros Hfound. revert i.
  induction rest as [|v rest IH]; intros i; cbn [setPlaylistIndex_loop count_occ].
  - reflexivity.
  - destruct (String.eqb_spec v videoId) as [->|Hne].
    + destruct (Z.leb_spec 0 found); [|lia].
      destruct (string_dec videoId videoId); [reflexivity|congruence].
    + destruct (string_dec v videoId); [congruence|]. apply IH.
Qed.

(** Before that, it looks for the first occurrence. *)
Lemma setPlaylistIndex_loop_search videoId rest : forall i,
  0 <= i ->
  (count_occ string_dec rest videoId = 0%nat ->
   setPlaylistIndex_loop videoId rest i (-1) = (-1, false))
  /\ ((1 <= count_occ string_dec rest videoId)%nat ->
      exists k,
        nth_error rest k = Some videoId
        /\ (forall j, (j < k)%nat -> nth_error rest j <> Some videoId)
        /\ setPlaylistIndex_loop videoId rest i (-1)
           = (i + Z.of_nat k,
              (2 <=? count_occ string_dec rest videoId)%nat)).
Proof.
  induction rest as [|v rest IH]; intros i Hi;
    cbn [setPlaylistIndex_loop count_occ].
  - split; [reflexivity | intros H; inversion H].
  - destruct (String.eqb_spec v videoId) as [->|Hne].
    + destruct (string_dec videoId videoId) as [_|]; [|congruence].
      split; [discriminate|]. intros _. exists 0%nat.
      split; [reflexivity|]. split; [intros j Hj; inversion Hj|].
      change (0 <=? -1) with false. cbv iota.
      rewrite setPlaylistIndex_loop_found by lia.
      f_equal; [lia|].
      destruct (count_occ string_dec rest videoId); reflexivity.
    + destruct (string_dec v videoId) as [|_]; [congruence|].
      destruct (IH (i + 1) ltac:(lia)) as [IH0 IH1].
      split; [exact IH0|]. intros Hc.
      destruct (IH1 Hc) as (k & Hk & Hfirst & Hloop).
      exists (S k). split; [exact Hk|]. split.
      * intros [|j] Hj; cbn [nth_error]; [congruence|].
        apply Hfirst. lia.
      * rewrite Hloop. f_equal. lia.
Qed.
Lemma setPlaylistIndex_missing videoId ps :
  count_occ string_dec (Playlist ps) videoId = 0%nat ->
  setPlaylistIndex videoId ps
  = Panicked "current video does not exist in new playlist" [].
Proof.
  intros Hc. unfold setPlaylistIndex.
  destruct (setPlaylistIndex_loop_search videoId (Playlist ps) 0 ltac:(lia))
    as [H0 _].
  unfold bind, get. rewrite (H0 Hc). reflexivity.
Qed.

Lemma setPlaylistIndex_first videoId ps :
  (1 <= count_occ string_dec (Playlist ps) videoId)%nat ->
  exists k,
    nth_error (Playlist ps) k = Some videoId
    /\ (forall j, (j < k)%nat -> nth_error (Playlist ps) j <> Some videoId)
    /\ setPlaylistIndex videoId ps
       = Done tt (set_Index (Z.of_nat k) ps)
           (if (2 <=? count_occ string_dec (Playlist ps) videoId)%nat
            then [Log "WARNING: videoId exists twice in playlist"] else []).
Proof.
  intros Hc. unfold setPlaylistIndex.
  destruct (setPlaylistIndex_loop_search videoId (Playlist ps) 0 ltac:(lia))
    as [_ H1].
  destruct (H1 Hc) as (k & Hk & Hfirst & Hloop).
  exists k. split; [exact Hk|]. split; [exact Hfirst|].
  unfold bind, get. rewrite Hloop. cbn [Z.add].
  destruct (Z.eqb_spec (Z.of_nat k) (-1)) as [E|_]; [lia|].
  destruct (2 <=? count_occ string_dec (Playlist ps) videoId)%nat;
    reflexivity.
Qed.

(** A playlist update while the play state has a current track [videoId]
    (the index holds an entry of the playlist) looks [videoId] up in the
    new playlist by value.  With no occurrence the coordinator panics;
    otherwise the new playlist is installed, the index becomes the first
    occurrence, nothing else of the play state changes, and the duplicate
    warning is logged exactly when there is more than one occurrence. *)
Theorem updatePlaylist_relocates_current_video p ps playlist videoId :
  slice_get (Playlist ps) (Index ps) = Some videoId ->
  (count_occ string_dec playlist videoId = 0%nat ->
   call p (CallUpdatePlaylist playlist) (Running ps)
   = (Crashed "current video does not exist in new playlist", []))
  /\ ((1 <= count_occ string_dec playlist videoId)%nat ->
      exists index tr,
        call p (CallUpdatePlaylist playlist) (Running ps)
        = (Running (mkPlayState playlist index (State_ ps) (Volume ps)
                      (bufferingPosition ps) (previousState ps)
                      (newVolume ps) (nextState ps)), tr)
        /\ slice_get playlist index = Some videoId
        /\ (forall j, j < index -> slice_get playlist j <> Some videoId)
        /\ (In (Log "WARNING: videoId exists twice in playlist") tr
            <-> (2 <= count_occ string_dec playlist videoId)%nat)).
Proof.
  intros Hcur. pose proof (slice_get_Some _ _ _ Hcur) as Hidx.
  assert (Hlen : (len (Playlist ps) =? 0) = false) by (apply Z.eqb_neq; lia).
  unfold call, getPlayState. cbn [callback_of]. unfold UpdatePlaylist.
  split; intros Hc.
  - assert (E : updatePlaylist playlist ps
                = Panicked "current video does not exist in new playlist" []).
    { unfold updatePlaylist, index_or_panic. cbv [bind get ret modify].
      rewrite Hlen, Hcur. cbv beta iota.
      rewrite setPlaylistIndex_missing by exact Hc. reflexivity. }
    rewrite E. reflexivity.
  - destruct (setPlaylistIndex_first videoId (set_Playlist playlist ps) Hc)
      as (k & Hk & Hfirst & Hset).
    cbn [Playlist set_Playlist] in Hk, Hfirst, Hset.
    unfold updatePlaylist, index_or_panic. cbv [bind get ret modify].
    rewrite Hlen, Hcur. cbv beta iota. rewrite Hset.
    assert (Hslice : slice_get playlist (Z.of_nat k) = Some videoId).
    { unfold slice_get. destruct (Z.ltb_spec (Z.of_nat k) 0); [lia|].
      now rewrite Nat2Z.id. }
    assert (Hbefore : forall j, j < Z.of_nat k ->
                                slice_get playlist j <> Some videoId).
    { intros j Hj. unfold slice_get.
      destruct (Z.ltb_spec j 0); [discriminate|]. apply Hfirst. lia. }
    exists (Z.of_nat k).
    destruct (negb (NextVideo (set_Index (Z.of_nat k)
                                 (set_Playlist playlist ps))
                    =? NextVideo ps)%string);
      destruct (Nat.leb_spec 2 (count_occ string_dec playlist videoId));
      eexists; (split; [reflexivity|]); (split; [exact Hslice|]);
      (split; [exact Hbefore|]); cbn; split; intros Hin;
      repeat match goal with
        | H : _ \/ _ |- _ => destruct H
        | H : False |- _ => destruct H
        | H : Log _ = GoPrefetchVideoStream _ |- _ => discriminate H
        | H : GoPrefetchVideoStream _ = Log _ |- _ => discriminate H
        end;
      auto; lia.
Qed.

Lemma updatePlaylist_relocates_current_video_witness :
  slice_get (Playlist playing_B) (Index playing_B) = Some "B"
  /\ call None (CallUpdatePlaylist ["X"; "Y"; "Z"]) (Running playing_B)
     = (Crashed "current video does not exist in new playlist", [])
  /\ exists index tr,
       call None (CallUpdatePlaylist ["X"; "B"; "Y"]) (Running playing_B)
       = (Running (mkPlayState ["X"; "B"; "Y"] index (State_ playing_B)
                     (Volume playing_B) (bufferingPosition playing_B)
                     (previousState playing_B) (newVolume playing_B)
                     (nextState playing_B)), tr)
       /\ slice_get ["X"; "B"; "Y"] index = Some "B"
       /\ (forall j, j < index -> slice_get ["X"; "B"; "Y"] j <> Some "B")
       /\ (In (Log "WARNING: videoId exists twice in playlist") tr
           <-> (2 <= count_occ string_dec ["X"; "B"; "Y"] "B")%nat).
Proof.
  assert (H0 : slice_get (Playlist playing_B) (Index playing_B) = Some "B")
    by reflexivity.
  split; [exact H0|]. split.
  - apply (proj1 (updatePlaylist_relocates_current_video
                    None playing_B ["X"; "Y"; "Z"] "B" H0)).
    reflexivity.
  - apply (proj2 (updatePlaylist_relocates_current_video
                    None playing_B ["X"; "B"; "Y"] "B" H0)).
    cbn. lia.
Defined.

(** C4 at the failing input.  On a new coordinator, an update to the empty
    playlist sets the index to -1 and an update to the playlist A keeps
    it: the playlist is not empty and the index holds no entry of it.
    Every further update then panics on [Playlist[-1]], whatever the new
    playlist is, also one that has A: nothing is re-located, and the panic
    is not the one for a video that the new playlist lacks. *)
Theorem UpdatePlaylist_panics_on_index_before_playlist :
  fst (steps (Running (initial_PlayState 80)) update_to_empty_then_A)
  = Running (mkPlayState ["A"] (-1) STATE_STOPPED 80 0 STATE_STOPPED false
               (-1))
  /\ forall p playlist,
      step (Running (mkPlayState ["A"] (-1) STATE_STOPPED 80 0
                       STATE_STOPPED false (-1)))
           (p, Command (CallUpdatePlaylist playlist))
      = (Crashed "runtime error: index out of range", []).
Proof.
  split; [reflexivity|]. intros p playlist. reflexivity.
Qed.

(** ** Installing a playlist on an empty one *)

Lemma updatePlaylist_installs playlist ps :
  Playlist ps = [] ->
  State_ ps <> STATE_PLAYING ->
  GoInt.in_range (len playlist) ->
  exists tr,
    updatePlaylist playlist ps
    = Done tt
        (mkPlayState playlist
           (if len playlist <=? Index ps then len playlist - 1 else Index ps)
           (State_ ps) (Volume ps) (bufferingPosition ps)
           (previousState ps) (newVolume ps) (nextState ps)) tr.
Proof.
  intros Hempty Hst Hlen.
  assert (Hsub : GoInt.sub (len playlist) 1 = len playlist - 1).
  { apply wrap_id. pose proof (len_nonneg playlist).
    unfold GoInt.in_range, GoInt.min_int, GoInt.max_int in *. lia. }
  apply Z.eqb_neq in Hst.
  destruct (returns_exists (updatePlaylist playlist)
              (fun _ ps' _ =>
                 ps' = mkPlayState playlist
                         (if len playlist <=? Index ps
                          then len playlist - 1 else Index ps)
                         (State_ ps) (Volume ps) (bufferingPosition ps)
                         (previousState ps) (newVolume ps) (nextState ps))
              ps) as ([] & ps' & tr & E & ->).
  - unfold updatePlaylist. do 2 returns_step. rewrite Hempty.
    change (len [] =? 0) with true. cbv iota. rewrite Hsub.
    returns_run; reflexivity.
  - now exists tr.
Qed.




(** ** Seeking while paused *)

(** C6 at the failing input.  [run] clears [nextState] only when it
    differs from the state before the seek, so a [Play] called during a
    seek that started in state Playing is still stored after that seek.
    The track is then paused, and [Seek(9)] is called with no call during
    the seek: the Seeking event is sent, but the seek-complete event sends
    no event Paused at 9; it takes the state back to Paused by assignment,
    keeps [bufferingPosition] at 9 and tells the backend to resume. *)
Theorem stale_queued_play_resumes_after_seek :
  fst (steps (Running (initial_PlayState 80)) play_during_seek_then_pause)
  = Running (mkPlayState ["A"] 0 STATE_PAUSED 80 (-1) STATE_PLAYING false
               STATE_PLAYING)
  /\ step (Running (mkPlayState ["A"] 0 STATE_PAUSED 80 (-1) STATE_PLAYING
                      false STATE_PLAYING))
          (None, Command (CallSeek 9))
     = (Running (mkPlayState ["A"] 0 STATE_SEEKING 80 9 STATE_PAUSED false
                   STATE_PLAYING),
        [SendStateChange STATE_SEEKING 9; PlayerSetPosition 9])
  /\ step (Running (mkPlayState ["A"] 0 STATE_SEEKING 80 9 STATE_PAUSED
                      false STATE_PLAYING))
          (None, PlayerEvent STATE_PLAYING)
     = (Running (mkPlayState ["A"] 0 STATE_PAUSED 80 9 STATE_PAUSED false
                   (-1)),
        [PlayerResume]).
Proof. split; [|split]; reflexivity. Qed.

(** ** Stale results of background work *)

(** C7.  When a stream resolution completes for a [videoId] that is no
    longer the video at the current index, the callback only logs: the
    play state is unchanged and the backend gets no command.  When it
    still is the current video and a URL came back, the backend is told to
    play it.  A prefetch whose [videoId] is no longer the next video does
    nothing at all; one whose [videoId] still is the next video starts the
    resolution. *)
Theorem stale_results_are_discarded p ps videoId streamUrl position :
  (Video ps <> videoId ->
   startPlaying_resolved p videoId streamUrl position ps
   = Done tt ps [Log "Video %s isn't needed anymore"])
  /\ (Video ps = videoId -> streamUrl <> "" ->
      startPlaying_resolved p videoId streamUrl position ps
      = Done tt (set_newVolume false ps)
          [PlayerPlay streamUrl position
             (if newVolume ps then Volume ps else -1);
           GoPrefetchVideoStream (NextVideo ps)])
  /\ (NextVideo ps <> videoId ->
      prefetchVideoStream_callback videoId ps = Done tt ps [])
  /\ (NextVideo ps = videoId -> videoId <> "" ->
      prefetchVideoStream_callback videoId ps
      = Done tt ps [GoVgGetStream videoId]).
Proof.
  repeat split.
  - intros Hne. apply String.eqb_neq in Hne.
    unfold startPlaying_resolved. cbv [bind get]. rewrite Hne. reflexivity.
  - intros He Hurl. apply String.eqb_eq in He. apply String.eqb_neq in Hurl.
    unfold startPlaying_resolved. cbv [bind get]. rewrite He, Hurl.
    destruct ps as [pl idx st vol bp prev nv nx]. destruct nv; reflexivity.
  - intros Hne. apply String.eqb_neq in Hne.
    unfold prefetchVideoStream_callback. cbv [bind get]. rewrite Hne.
    rewrite orb_true_r. reflexivity.
  - intros He Hid. subst videoId. apply String.eqb_neq in Hid.
    unfold prefetchVideoStream_callback. cbv [bind get].
    rewrite Hid, String.eqb_refl. reflexivity.
Qed.

Lemma stale_results_are_discarded_witness :
  startPlaying_resolved None "A" "url" 0 playing_B
  = Done tt playing_B [Log "Video %s isn't needed anymore"]
  /\ startPlaying_resolved None "B" "url" 0 playing_B
     = Done tt (set_newVolume false playing_B)
         [PlayerPlay "url" 0 (-1); GoPrefetchVideoStream "C"]
  /\ prefetchVideoStream_callback "A" playing_B = Done tt playing_B []
  /\ prefetchVideoStream_callback "C" playing_B
     = Done tt playing_B [GoVgGetStream "C"].
Proof.
  split; [|split; [|split]].
  - apply (proj1 (stale_results_are_discarded None playing_B "A" "url" 0)).
    discriminate.
  - apply (proj1 (proj2
      (stale_results_are_discarded None playing_B "B" "url" 0)));
      [reflexivity | discriminate].
  - apply (proj1 (proj2 (proj2
      (stale_results_are_discarded None playing_B "A" "url" 0)))).
    discriminate.
  - apply (proj2 (proj2 (proj2
      (stale_results_are_discarded None playing_B "C" "url" 0))));
      [reflexivity | discriminate].
Defined.

(** ** After shutdown *)

Lemma steps_Closed xs : steps Closed xs = (Closed, []).
Proof.
  induction xs as [|[p input] xs IH]; [reflexivity|].
  cbn [steps].
  assert (E : step Closed (p, input) = (Closed, [])).
  { destruct input as [cmd| | videoId | |]; try reflexivity.
    cbn [step]. unfold prefetchVideoStream.
    destruct (videoId =? "")%string; reflexivity. }
  rewrite E, IH. reflexivity.
Qed.

(** C8.  When the backend's event channel is closed, [run] closes the
    event sink and the access channel and returns; every public method
    called afterwards returns without touching any play state and without
    any effect, whatever it is called with: of the whole run, the two
    closings are the only effects. *)
Theorem calls_after_shutdown_are_ignored p ps
        (calls : list (option Duration * Call)) :
  steps (Running ps)
    ((p, PlayerEventsClosed)
       :: map (fun c => (fst c, Command (snd c))) calls)
  = (Closed, [CloseStateChange; ClosePlaystateChan])
  /\ (forall q cmd, call q cmd Closed = (Closed, [])).
Proof.
  split; [|reflexivity].
  cbn [steps]. change (step (Running ps) (p, PlayerEventsClosed))
    with (Closed, [CloseStateChange; ClosePlaystateChan]).
  cbv beta iota. now rewrite steps_Closed.
Qed.

(** ** Seek and Play while stopped *)

Lemma startPlaying_panics p position ps :
  State_ ps = STATE_STOPPED ->
  slice_get (Playlist ps) (Index ps) = None ->
  panics (startPlaying p position) ps.
Proof.
  intros Hst Hnone.
  pose proof (setPlayState_wp p STATE_BUFFERING position ps) as Hset.
  unfold startPlaying, index_or_panic.
  unfold panics, bind, get. rewrite Hst.
  change (STATE_STOPPED =? STATE_PLAYING) with false. cbv iota.
  unfold ret at 1. cbv beta iota.
  unfold wp in Hset.
  destruct (setPlayState p STATE_BUFFERING position ps) as [a ps' tr|];
    [|exact I].
  subst ps'. cbn [Playlist Index after_setPlayState]. rewrite Hnone.
  exact I.
Qed.

(** In state Stopped, [Seek] goes to [startPlaying] without looking at
    the index: with an empty playlist, or with an index at or past the
    length of the playlist, it panics and the coordinator is gone.
    [Play] in the same state first tests the index against the length
    and, when it is at or past it, only logs a warning. *)
Theorem Seek_while_stopped_panics p ps position :
  State_ ps = STATE_STOPPED ->
  (Playlist ps = [] \/ len (Playlist ps) <= Index ps ->
   exists msg tr,
     call p (CallSeek position) (Running ps) = (Crashed msg, tr))
  /\ (len (Playlist ps) <= Index ps ->
      call p CallPlay (Running ps)
      = (Running ps, [Log "Warning: invalid index or empty playlist"])).
Proof.
  intros Hst. split.
  - intros Hout.
    assert (Hnone : slice_get (Playlist ps) (Index ps) = None).
    { apply slice_get_None. destruct Hout as [E|H]; [|now right].
      rewrite E. change (len []) with 0. lia. }
    destruct (panics_exists _ _ (startPlaying_panics p position ps Hst Hnone))
      as (msg & tr & E).
    exists msg, tr. unfold call, getPlayState. cbn [callback_of].
    unfold Seek. cbv [bind get]. rewrite Hst.
    change (STATE_STOPPED =? STATE_STOPPED) with true. cbv iota.
    rewrite E. rewrite app_nil_l. reflexivity.
  - intros Hout. apply Z.leb_le in Hout.
    unfold call, getPlayState. cbn [callback_of].
    unfold Play. cbv [bind get]. rewrite Hst.
    change (STATE_STOPPED =? STATE_STOPPED) with true. cbv iota.
    rewrite Hout. reflexivity.
Qed.

Lemma Seek_while_stopped_panics_witness :
  State_ stopped_at_2 = STATE_STOPPED
  /\ (exists msg tr,
        call None (CallSeek 0) (Running stopped_at_2) = (Crashed msg, tr))
  /\ call None CallPlay (Running stopped_at_2)
     = (Running stopped_at_2,
        [Log "Warning: invalid index or empty playlist"]).
Proof.
  assert (H0 : State_ stopped_at_2 = STATE_STOPPED) by reflexivity.
  split; [exact H0|]. split.
  - apply (proj1 (Seek_while_stopped_panics None stopped_at_2 0 H0)).
    left. reflexivity.
  - apply (proj2 (Seek_while_stopped_panics None stopped_at_2 0 H0)).
    cbv. discriminate.
Defined.

(** C9 at the failing input.  An update to the empty playlist on the
    initial play state sets the index to [len - 1], which is -1.  [Play]
    then finds the state Stopped and the index below the length, calls
    [startPlaying], and panics on [Playlist[-1]] after the Buffering event:
    the call is not ignored although the playlist is empty. *)
Theorem Play_panics_after_update_to_empty :
  steps (Running (initial_PlayState 80)) update_to_empty
  = (Running (mkPlayState [] (-1) STATE_STOPPED 80 0 STATE_STOPPED false
                (-1)), [])
  /\ step (Running (mkPlayState [] (-1) STATE_STOPPED 80 0 STATE_STOPPED
                      false (-1)))
          (None, Command CallPlay)
     = (Crashed "runtime error: index out of range",
        [SendStateChange STATE_BUFFERING 0]).
Proof. split; reflexivity. Qed.

(** ** Stop *)

(** C10.  [Stop] replaces the playlist by the empty one and tells the
    backend to stop; the index and every other field of the play state
    keep their values, whether or not the index still points into the
    playlist.  A playlist update that follows (the state not being
    Playing) starts from that index: it keeps it when it is below the new
    length, and takes [len - 1] otherwise. *)
Theorem Stop_clears_only_the_playlist p ps :
  call p CallStop (Running ps)
  = (Running (mkPlayState [] (Index ps) (State_ ps) (Volume ps)
                (bufferingPosition ps) (previousState ps) (newVolume ps)
                (nextState ps)),
     [PlayerStop])
  /\ (forall q playlist,
        State_ ps <> STATE_PLAYING ->
        GoInt.in_range (len playlist) ->
        exists tr,
          steps (Running ps)
            [(p, Command CallStop); (q, Command (CallUpdatePlaylist playlist))]
          = (Running (mkPlayState playlist
                        (if len playlist <=? Index ps
                         then len playlist - 1 else Index ps)
                        (State_ ps) (Volume ps) (bufferingPosition ps)
                        (previousState ps) (newVolume ps) (nextState ps)),
             PlayerStop :: tr)).
Proof.
  split; [reflexivity|]. intros q playlist Hst Hlen.
  destruct (updatePlaylist_installs playlist (set_Playlist [] ps)
              eq_refl Hst Hlen) as (tr & E).
  exists tr. cbn [steps step].
  change (call p CallStop (Running ps))
    with (Running (set_Playlist [] ps), [PlayerStop]).
  cbv beta iota. unfold call, getPlayState. cbn [callback_of].
  unfold UpdatePlaylist. rewrite E. fields. rewrite app_nil_r. reflexivity.
Qed.

Lemma Stop_clears_only_the_playlist_witness :
  call None CallStop (Running playing_B)
  = (Running (mkPlayState [] 1 STATE_PLAYING 80 (-1) STATE_BUFFERING
                false (-1)),
     [PlayerStop])
  /\ exists tr,
       steps (Running paused_B)
         [(None, Command CallStop);
          (None, Command (CallUpdatePlaylist ["X"]))]
       = (Running (mkPlayState ["X"] 0 STATE_PAUSED 80 (-1) STATE_PLAYING
                     false (-1)),
          PlayerStop :: tr).
Proof.
  split.
  - exact (proj1 (Stop_clears_only_the_playlist None playing_B)).
  - apply (proj2 (Stop_clears_only_the_playlist None paused_B) None ["X"]).
    + discriminate.
    + cbv. split; discriminate.
Defined.

(** ** Further properties of the coordinator *)

(** The state is one of Stopped, Playing, Paused, Buffering and Seeking at
    every observation point, whatever the calls, results and events were
    (so is the state remembered for the end of a seek). *)
Theorem state_is_one_of_five initialVolume xs ps :
  fst (steps (Running (initial_PlayState initialVolume)) xs) = Running ps ->
  known_state (State_ ps) /\ known_state (previousState ps).
Proof.
  intros Hrun.
  assert (Hxs : Forall (fun x => False -> nonneg_positions (snd x)) xs).
  { apply Forall_forall. intros x _ []. }
  pose proof (steps_inv False xs _ Hxs
                (initial_PlayState_inv False initialVolume)) as H.
  rewrite Hrun in H. destruct H as (H1 & H2 & _). now split.
Qed.

Lemma state_is_one_of_five_witness :
  fst (steps (Running (initial_PlayState 80)) play_then_pause)
  = Running (mkPlayState ["A"] 0 STATE_PAUSED 80 (-1) STATE_PLAYING
               false (-1))
  /\ known_state STATE_PAUSED /\ known_state STATE_PLAYING.
Proof.
  assert (H0 : fst (steps (Running (initial_PlayState 80)) play_then_pause)
               = Running (mkPlayState ["A"] 0 STATE_PAUSED 80 (-1)
                            STATE_PLAYING false (-1)))
    by reflexivity.
  exact (conj H0 (state_is_one_of_five 80 play_then_pause _ H0)).
Defined.

(** The end of a track: on the backend's "stopped" event while Playing or
    Paused, the coordinator moves to the next track if there is one (the
    index is incremented, the state is Buffering at position 0 and the
    resolution of the next track starts); at the last track it goes to
    Stopped, emits Stopped at position 0 and keeps the playlist. *)
Theorem backend_stopped_advances_or_stops p ps :
  State_ ps = STATE_PLAYING \/ State_ ps = STATE_PAUSED ->
  GoInt.in_range (len (Playlist ps)) ->
  (forall next,
      slice_get (Playlist ps) (Index ps + 1) = Some next ->
      step (Running ps) (p, PlayerEvent STATE_STOPPED)
      = (Running (mkPlayState (Playlist ps) (Index ps + 1) STATE_BUFFERING
                    (Volume ps) 0 STATE_STOPPED (newVolume ps)
                    (nextState ps)),
         [SendStateChange STATE_BUFFERING 0; GoGetStream next 0]))
  /\ (Index ps + 1 = len (Playlist ps) ->
      step (Running ps) (p, PlayerEvent STATE_STOPPED)
      = (Running (mkPlayState (Playlist ps) (Index ps) STATE_STOPPED
                    (Volume ps) (-1) (State_ ps) (newVolume ps)
                    (nextState ps)),
         [SendStateChange STATE_STOPPED 0])).
Proof.
  intros Hst Hlen.
  assert (Hseek : State_ ps <> STATE_SEEKING)
    by (destruct Hst as [H|H]; rewrite H; discriminate).
  cbn [step run_select_event]. rewrite (run_event_stopped p ps Hst).
  split.
  - intros next Hnext. now rewrite (nextVideo_advances p ps next Hnext Hlen).
  - intros Hlast. now rewrite (nextVideo_at_the_end p ps Hlast Hlen Hseek).
Qed.

Lemma backend_stopped_advances_or_stops_witness :
  step (Running playing_A) (None, PlayerEvent STATE_STOPPED)
  = (Running buffering_B,
     [SendStateChange STATE_BUFFERING 0; GoGetStream "B" 0])
  /\ step (Running playing_B) (None, PlayerEvent STATE_STOPPED)
     = (Running (mkPlayState ["A"; "B"; "C"] 2 STATE_BUFFERING 80 0
                   STATE_STOPPED false (-1)),
        [SendStateChange STATE_BUFFERING 0; GoGetStream "C" 0])
  /\ step (Running paused_B) (None, PlayerEvent STATE_STOPPED)
     = (Running (mkPlayState ["A"; "B"] 1 STATE_STOPPED 80 (-1) STATE_PAUSED
                   false (-1)),
        [SendStateChange STATE_STOPPED 0]).
Proof.
  split; [|split].
  - apply (proj1 (backend_stopped_advances_or_stops None playing_A
                    (or_introl eq_refl) ltac:(cbv; split; discriminate))).
    reflexivity.
  - apply (proj1 (backend_stopped_advances_or_stops None playing_B
                    (or_introl eq_refl) ltac:(cbv; split; discriminate))).
    reflexivity.
  - apply (proj2 (backend_stopped_advances_or_stops None paused_B
                    (or_intror eq_refl) ltac:(cbv; split; discriminate))).
    reflexivity.
Defined.

(** A failed resolution: when the resolution of the current track comes
    back empty, the coordinator logs it and moves to the next track if
    there is one, in whatever state it is; at the last track, when the
    state is not Seeking, it goes to Stopped, emits Stopped at position 0
    and keeps the playlist. *)
Theorem empty_stream_url_advances_or_stops p ps videoId position :
  Video ps = videoId ->
  GoInt.in_range (len (Playlist ps)) ->
  (forall next,
      slice_get (Playlist ps) (Index ps + 1) = Some next ->
      step (Running ps) (p, StreamResolved videoId "" position)
      = (Running (mkPlayState (Playlist ps) (Index ps + 1) STATE_BUFFERING
                    (Volume ps) 0 STATE_STOPPED (newVolume ps)
                    (nextState ps)),
         [Log "WARNING: empty stream URL";
          SendStateChange STATE_BUFFERING 0; GoGetStream next 0]))
  /\ (Index ps + 1 = len (Playlist ps) ->
      State_ ps <> STATE_SEEKING ->
      step (Running ps) (p, StreamResolved videoId "" position)
      = (Running (mkPlayState (Playlist ps) (Index ps) STATE_STOPPED
                    (Volume ps) (-1) (State_ ps) (newVolume ps)
                    (nextState ps)),
         [Log "WARNING: empty stream URL";
          SendStateChange STATE_STOPPED 0])).
Proof.
  intros Hvideo Hlen. apply String.eqb_eq in Hvideo.
  cbn [step getPlayState]. unfold startPlaying_resolved.
  cbv [bind get emit]. rewrite Hvideo. cbv beta iota.
  change (negb true) with false. change ("" =? "")%string with true.
  cbv iota.
  split.
  - intros next Hnext. now rewrite (nextVideo_advances p ps next Hnext Hlen).
  - intros Hlast Hseek.
    now rewrite (nextVideo_at_the_end p ps Hlast Hlen Hseek).
Qed.

Lemma empty_stream_url_advances_or_stops_witness :
  step (Running playing_B) (None, StreamResolved "B" "" 0)
  = (Running (mkPlayState ["A"; "B"; "C"] 2 STATE_BUFFERING 80 0
                STATE_STOPPED false (-1)),
     [Log "WARNING: empty stream URL";
      SendStateChange STATE_BUFFERING 0; GoGetStream "C" 0])
  /\ step (Running buffering_B) (None, StreamResolved "B" "" 0)
     = (Running (mkPlayState ["A"; "B"] 1 STATE_STOPPED 80 (-1)
                   STATE_BUFFERING false (-1)),
        [Log "WARNING: empty stream URL";
         SendStateChange STATE_STOPPED 0]).
Proof.
  split.
  - apply (proj1 (empty_stream_url_advances_or_stops None playing_B "B" 0
                    eq_refl ltac:(cbv; split; discriminate))).
    reflexivity.
  - apply (proj2 (empty_stream_url_advances_or_stops None buffering_B "B" 0
                    eq_refl ltac:(cbv; split; discriminate)));
      [reflexivity | discriminate].
Defined.

(** A volume call reports the stored volume to its caller; while Playing
    or Paused the same value goes to the backend at once, in every other
    state it is marked as pending. *)
Theorem volume_is_reported_and_applied_or_deferred p ps x :
  volume_call x ->
  exists ps',
    step (Running ps) (p, x)
    = (Running ps',
       (if (State_ ps =? STATE_PLAYING) || (State_ ps =? STATE_PAUSED)
        then [PlayerSetVolume (Volume ps')] else [])
         ++ [SendVolume (Volume ps')])
    /\ newVolume ps'
       = (if (State_ ps =? STATE_PLAYING) || (State_ ps =? STATE_PAUSED)
          then newVolume ps else true)
    /\ State_ ps' = State_ ps.
Proof.
  set (applied := (State_ ps =? STATE_PLAYING) || (State_ ps =? STATE_PAUSED)).
  assert (H : forall callback,
      returns callback
        (fun _ ps' tr =>
           tr = (if applied then [PlayerSetVolume (Volume ps')] else [])
                  ++ [SendVolume (Volume ps')]
           /\ newVolume ps' = (if applied then newVolume ps else true)
           /\ State_ ps' = State_ ps) ps ->
      exists ps',
        getPlayState callback (Running ps)
        = (Running ps',
           (if applied then [PlayerSetVolume (Volume ps')] else [])
             ++ [SendVolume (Volume ps')])
        /\ newVolume ps' = (if applied then newVolume ps else true)
        /\ State_ ps' = State_ ps).
  { intros callback Hr.
    destruct (returns_exists _ _ _ Hr) as ([] & ps' & tr & E & -> & H1 & H2).
    exists ps'. cbn [getPlayState]. rewrite E. auto. }
  destruct x as [[]| | | |]; cbn [volume_call]; try contradiction; intros _;
    cbn [step]; unfold call; cbn [callback_of]; apply H; subst applied.
  - unfold SetVolume, applyVolume. returns_run; auto.
  - unfold ChangeVolume, applyVolume. returns_run; auto.
Qed.

Lemma volume_is_reported_and_applied_or_deferred_witness :
  volume_call (Command (CallChangeVolume 50))
  /\ exists ps',
       step (Running paused_B) (None, Command (CallChangeVolume 50))
       = (Running ps', [PlayerSetVolume (Volume ps')] ++ [SendVolume (Volume ps')])
       /\ newVolume ps' = false
       /\ State_ ps' = STATE_PAUSED.
Proof.
  split; [exact I|].
  exact (volume_is_reported_and_applied_or_deferred None paused_B
           (Command (CallChangeVolume 50)) I).
Defined.

(** A pending volume reaches the backend when the backend next reports
    "playing": the backend gets [setVolume] before the state change is
    emitted, and the pending mark is cleared. *)
Theorem deferred_volume_is_applied_when_playing ps position :
  newVolume ps = true ->
  State_ ps = STATE_BUFFERING ->
  0 <= position ->
  step (Running ps) (Some position, PlayerEvent STATE_PLAYING)
  = (Running (mkPlayState (Playlist ps) (Index ps) STATE_PLAYING (Volume ps)
                (-1) STATE_BUFFERING false (nextState ps)),
     [PlayerSetVolume (Volume ps); SendStateChange STATE_PLAYING position]).
Proof.
  intros Hnew Hst Hpos. destruct ps as [pl idx st vol bp prev nv nx].
  cbn in Hnew, Hst. subst nv st.
  assert (E : (position <? 0) = false) by (apply Z.ltb_ge; exact Hpos).
  exec. cbn. rewrite E. reflexivity.
Qed.

Lemma deferred_volume_is_applied_when_playing_witness :
  step (Running (mkPlayState ["A"] 0 STATE_BUFFERING 30 0 STATE_STOPPED
                   true (-1)))
       (Some 0, PlayerEvent STATE_PLAYING)
  = (Running (mkPlayState ["A"] 0 STATE_PLAYING 30 (-1) STATE_BUFFERING
                false (-1)),
     [PlayerSetVolume 30; SendStateChange STATE_PLAYING 0]).
Proof.
  exact (deferred_volume_is_applied_when_playing
           (mkPlayState ["A"] 0 STATE_BUFFERING 30 0 STATE_STOPPED true (-1))
           0 eq_refl eq_refl ltac:(lia)).
Defined.

(** ** Outcomes of handlers: what is kept and what is sent *)

Lemma outcome_ret {A : Type} (a : A) Q R ps :
  Q a ps [] -> outcome (ret a) Q R ps.
Proof. exact (fun H => H). Qed.

Lemma outcome_get Q R ps : Q ps ps [] -> outcome get Q R ps.
Proof. exact (fun H => H). Qed.

Lemma outcome_modify f Q R ps : Q tt (f ps) [] -> outcome (modify f) Q R ps.
Proof. exact (fun H => H). Qed.

Lemma outcome_emit e Q R ps : Q tt ps [e] -> outcome (emit e) Q R ps.
Proof. exact (fun H => H). Qed.

Lemma outcome_panic {A : Type} msg (Q : A -> _) R ps :
  R msg [] -> outcome (panic msg) Q R ps.
Proof. exact (fun H => H). Qed.

Lemma outcome_bind {A B : Type} (m : M A) (f : A -> M B) Q R ps :
  outcome m
    (fun a ps1 tr1 =>
       outcome (f a) (fun b ps2 tr2 => Q b ps2 (tr1 ++ tr2))
               (fun msg tr2 => R msg (tr1 ++ tr2)) ps1)
    R ps ->
  outcome (bind m f) Q R ps.
Proof.
  unfold outcome, bind. destruct (m ps) as [a ps1 tr1|]; [|trivial].
  destruct (f a ps1); trivial.
Qed.

Lemma outcome_mono {A : Type} (m : M A) (Q Q' : A -> _) (R R' : _ -> _) ps :
  outcome m Q R ps ->
  (forall a ps' tr, Q a ps' tr -> Q' a ps' tr) ->
  (forall msg tr, R msg tr -> R' msg tr) ->
  outcome m Q' R' ps.
Proof. unfold outcome. destruct (m ps); auto. Qed.

Ltac outcome_step :=
  lazymatch goal with
  | |- outcome (bind _ _) _ _ _ => apply outcome_bind
  | |- outcome (ret _) _ _ _ => apply outcome_ret
  | |- outcome get _ _ _ => apply outcome_get
  | |- outcome (modify _) _ _ _ => apply outcome_modify
  | |- outcome (emit _) _ _ _ => apply outcome_emit
  | |- outcome (panic _) _ _ _ => apply outcome_panic
  | |- outcome (if ?b then _ else _) _ _ _ => destruct b eqn:?
  | |- outcome (match ?o with Some _ => _ | None => _ end) _ _ _ =>
      destruct o eqn:?
  | |- outcome (let '(_, _) := ?x in _) _ _ _ => destruct x eqn:?
  end.

Ltac outcome_run := repeat (outcome_step; fields).

(** Use the specification [lem] of a handler that is called. *)
Ltac outcome_call lem :=
  eapply outcome_mono; [ apply lem | cbv beta; intros | cbv beta; intros ].

(** The panics of the code that a caller can cause. *)
Lemma expected_index_out_of_range nonneg live :
  expected_panic nonneg live "runtime error: index out of range".
Proof. now left. Qed.

Lemma expected_video_missing nonneg live :
  expected_panic nonneg live "current video does not exist in new playlist".
Proof. right. now left. Qed.

Lemma expected_empty_playlist nonneg live :
  expected_panic nonneg live "empty playlist while playing".
Proof. right. right. now left. Qed.

Lemma expected_backend_error (nonneg live : Prop) :
  ~ live -> expected_panic nonneg live "getPosition: backend error".
Proof. intros H. right. right. right. left. now split. Qed.

Lemma expected_negative_position (nonneg live : Prop) :
  ~ nonneg -> expected_panic nonneg live "got position < 0".
Proof. intros H. right. right. right. right. now split. Qed.

Create HintDb panics.
#[local] Hint Resolve expected_index_out_of_range expected_video_missing
  expected_empty_playlist : panics.

Ltac safe_open :=
  unfold safe_inv, state_inv, index_below_length, queued_state, known_state,
    position_inv, buffering_or_seeking, backend_ok, good_effect,
    after_setPlayState in *;
  fields; tests;
  repeat match goal with
    | H : context [(_ =? _)%Z = true] |- _ => rewrite Z.eqb_eq in H
    | H : _ /\ _ |- _ => destruct H
    end;
  subst.

Ltac safe_solve :=
  safe_open; states;
  repeat rewrite ?Forall_app, ?Forall_cons_iff, ?Forall_nil_iff;
  repeat match goal with
    | |- context [if ?b then _ else _] => destruct b eqn:?; tests
    end;
  repeat match goal with
    | |- _ /\ _ => split
    end;
  intros;
  repeat match goal with
    | Hn : ?P, H : ?P -> _ |- _ => specialize (H Hn)
    end;
  repeat match goal with
    | H : _ /\ _ |- _ => destruct H
    end;
  try assumption;
  try solve [auto with panics];
  try match goal with
    | |- expected_panic _ _ "getPosition: backend error" =>
        apply expected_backend_error; intros ?
    | |- expected_panic _ _ "got position < 0" =>
        apply expected_negative_position; intros ?
    end;
  repeat match goal with
    | Hn : ?P, H : ?P -> _ |- _ => specialize (H Hn)
    end;
  repeat match goal with
    | Hn : ?P, H : (?P -> _) \/ _ |- _ =>
        destruct H as [H|H]; [specialize (H Hn)|]
    end;
  fields;
  try assumption; try lia; try congruence;
  try solve [left; first [assumption | reflexivity]];
  try solve [right; lia];
  try match goal with
    | H : (?P -> ?Q) \/ _ |- (?P -> ?Q) \/ _ =>
        destruct H as [H|H]; [left; exact H | right; left; lia]
    end.

Section Safety.

Variables nonneg vol live : Prop.

Lemma getPosition_outcome p ps :
  known_state (State_ ps) ->
  (nonneg -> position_inv ps) ->
  backend_ok nonneg live p ->
  outcome (getPosition p)
    (fun position ps' tr => ps' = ps /\ tr = [] /\ 0 <= position)
    (fun msg tr => expected_panic nonneg live msg /\ tr = []) ps.
Proof.
  intros Hst Hpos Hp. unfold getPosition. outcome_run.
  all: safe_solve.
Qed.

Lemma setPlayState_outcome p state position ps :
  state_inv nonneg vol ps ->
  known_state state ->
  (nonneg -> 0 <= position) \/ State_ ps = STATE_SEEKING
  \/ (position = -1 /\ ~ buffering_or_seeking state) ->
  backend_ok nonneg live p ->
  outcome (setPlayState p state position)
    (fun _ ps' tr =>
       state_inv nonneg vol ps' /\ Playlist ps' = Playlist ps
       /\ Index ps' = Index ps /\ State_ ps' = state
       /\ Forall (good_effect nonneg vol) tr)
    (fun msg tr =>
       expected_panic nonneg live msg /\ Forall (good_effect nonneg vol) tr) ps.
Proof.
  intros Hinv Hst Hpos Hp. unfold setPlayState. outcome_run.
  1, 3: outcome_call getPosition_outcome; outcome_run.
  all: safe_solve.
Qed.

Lemma startPlaying_safe p position ps :
  state_inv nonneg vol ps ->
  (nonneg -> 0 <= position) \/ State_ ps = STATE_SEEKING ->
  backend_ok nonneg live p ->
  safe nonneg vol live (startPlaying p position) ps.
Proof.
  intros Hinv Hpos Hp. unfold safe, startPlaying, index_or_panic.
  outcome_run.
  all: outcome_call setPlayState_outcome; outcome_run.
  all: try match goal with
         | H : slice_get _ _ = Some _ |- _ => apply slice_get_Some in H
         end.
  all: safe_solve.
Qed.

Lemma nextVideo_safe p ps :
  safe_inv nonneg vol ps ->
  backend_ok nonneg live p ->
  safe nonneg vol live (nextVideo p) ps.
Proof.
  intros Hinv Hp. unfold safe, nextVideo. outcome_run.
  - outcome_call startPlaying_safe; safe_solve.
  - outcome_call setPlayState_outcome; outcome_run; safe_solve.
Qed.

Lemma startPlaying_resolved_safe p videoId streamUrl position ps :
  safe_inv nonneg vol ps ->
  backend_ok nonneg live p ->
  safe nonneg vol live (startPlaying_resolved p videoId streamUrl position) ps.
Proof.
  intros Hinv Hp. unfold safe, startPlaying_resolved. outcome_run.
  2: outcome_call nextVideo_safe.
  all: safe_solve.
Qed.

Lemma prefetchVideoStream_callback_safe videoId ps :
  safe_inv nonneg vol ps ->
  safe nonneg vol live (prefetchVideoStream_callback videoId) ps.
Proof.
  intros Hinv. unfold safe, prefetchVideoStream_callback. outcome_run.
  all: safe_solve.
Qed.

Lemma setPlaylistIndex_loop_bound videoId rest : forall i newIndex r warned,
  setPlaylistIndex_loop videoId rest i newIndex = (r, warned) ->
  r = newIndex \/ i <= r < i + len rest.
Proof.
  induction rest as [|v rest IH]; intros i newIndex r warned; cbn [setPlaylistIndex_loop].
  - intros E. injection E as <- _. now left.
  - assert (Hlen : len (v :: rest) = 1 + len rest)
      by (unfold len; cbn [List.length]; lia).
    pose proof (len_nonneg rest) as Hnn.
    destruct (v =? videoId)%string.
    + destruct (0 <=? newIndex).
      * intros E. injection E as <- _. now left.
      * intros E. apply IH in E. lia.
    + intros E. apply IH in E. lia.
Qed.

Lemma setPlaylistIndex_safe videoId ps :
  state_inv nonneg vol ps ->
  safe nonneg vol live (setPlaylistIndex videoId) ps.
Proof.
  intros Hinv. unfold safe, setPlaylistIndex. outcome_run.
  all: match goal with
       | H : setPlaylistIndex_loop _ _ _ _ = _ |- _ =>
           apply setPlaylistIndex_loop_bound in H
       end.
  all: safe_solve.
Qed.

Lemma last_index_below_length {A : Type} (s : list A) :
  GoInt.sub (len s) 1 < len s.
Proof.
  pose proof (len_nonneg s) as H. unfold GoInt.sub, GoInt.wrap.
  pose proof (Z.mod_le (len s - 1 + 2 ^ 63) (2 ^ 64)). lia.
Qed.

Lemma updatePlaylist_safe playlist ps :
  safe_inv nonneg vol ps ->
  safe nonneg vol live (updatePlaylist playlist) ps.
Proof.
  intros Hinv. unfold safe, updatePlaylist, index_or_panic.
  pose proof (last_index_below_length playlist) as Hlast. outcome_run.
  6: outcome_call setPlaylistIndex_safe; outcome_run.
  all: safe_solve.
Qed.

Lemma stop_safe ps :
  state_inv nonneg vol ps -> safe nonneg vol live stop ps.
Proof. intros Hinv. unfold safe, stop. outcome_run. safe_solve. Qed.

Lemma SetPlaystate_safe p playlist index position ps :
  safe_inv nonneg vol ps ->
  (nonneg -> 0 <= position) ->
  backend_ok nonneg live p ->
  safe nonneg vol live (SetPlaystate p playlist index position) ps.
Proof.
  intros Hinv Hpos Hp. unfold safe, SetPlaystate, index_or_panic.
  outcome_run.
  all: try (outcome_call updatePlaylist_safe).
  all: try (outcome_call startPlaying_safe).
  all: try (outcome_call stop_safe).
  all: safe_solve.
Qed.

Lemma SetVideo_safe p videoId position ps :
  safe_inv nonneg vol ps ->
  (nonneg -> 0 <= position) ->
  backend_ok nonneg live p ->
  safe nonneg vol live (SetVideo p videoId position) ps.
Proof.
  intros Hinv Hpos Hp. unfold safe, SetVideo. outcome_run.
  outcome_call setPlaylistIndex_safe; [safe_solve| |safe_solve].
  outcome_call startPlaying_safe; safe_solve.
Qed.

Lemma RequestPlaylist_safe p ps :
  safe_inv nonneg vol ps ->
  backend_ok nonneg live p ->
  safe nonneg vol live (RequestPlaylist p) ps.
Proof.
  intros Hinv Hp. unfold safe, RequestPlaylist. outcome_run.
  outcome_call getPosition_outcome; outcome_run; safe_solve.
Qed.

Lemma Pause_safe ps :
  safe_inv nonneg vol ps -> safe nonneg vol live Pause ps.
Proof. intros Hinv. unfold safe, Pause. outcome_run. all: safe_solve. Qed.

Lemma Play_safe p ps :
  safe_inv nonneg vol ps ->
  backend_ok nonneg live p ->
  safe nonneg vol live (Play p) ps.
Proof.
  intros Hinv Hp. unfold safe, Play. outcome_run.
  2: outcome_call startPlaying_safe.
  all: safe_solve.
Qed.

Lemma Seek_safe p position ps :
  safe_inv nonneg vol ps ->
  (nonneg -> 0 <= position) ->
  backend_ok nonneg live p ->
  safe nonneg vol live (Seek p position) ps.
Proof.
  intros Hinv Hpos Hp. unfold safe, Seek. outcome_run.
  all: try (outcome_call startPlaying_safe).
  all: try (outcome_call setPlayState_outcome; outcome_run).
  all: safe_solve.
Qed.

Lemma applyVolume_safe ps :
  safe_inv nonneg vol ps -> safe nonneg vol live applyVolume ps.
Proof. intros Hinv. unfold safe, applyVolume. outcome_run. all: safe_solve. Qed.

Lemma SetVolume_safe volume ps :
  safe_inv nonneg vol ps ->
  (vol -> 0 <= volume <= 100) ->
  safe nonneg vol live (SetVolume volume) ps.
Proof.
  intros Hinv Hv. unfold safe, SetVolume. outcome_run.
  outcome_call applyVolume_safe; safe_solve.
Qed.

Lemma ChangeVolume_safe delta ps :
  safe_inv nonneg vol ps -> safe nonneg vol live (ChangeVolume delta) ps.
Proof.
  intros Hinv. unfold safe, ChangeVolume. outcome_run.
  all: outcome_call applyVolume_safe; safe_solve.
Qed.

Lemma RequestVolume_safe ps :
  safe_inv nonneg vol ps -> safe nonneg vol live RequestVolume ps.
Proof. intros Hinv. unfold safe, RequestVolume. outcome_run. safe_solve. Qed.

Lemma Quit_safe ps :
  safe_inv nonneg vol ps -> safe nonneg vol live Quit ps.
Proof. intros Hinv. unfold safe, Quit. outcome_run. safe_solve. Qed.

Lemma run_event_safe p event ps :
  safe_inv nonneg vol ps ->
  backend_ok nonneg live p ->
  safe nonneg vol live (run_event p event) ps.
Proof.
  intros Hinv Hp. unfold safe, run_event. outcome_run.
  all: try (outcome_call setPlayState_outcome; outcome_run).
  all: try (outcome_call nextVideo_safe).
  all: safe_solve.
Qed.

Lemma getPlayState_safe callback c :
  (forall ps, safe_inv nonneg vol ps -> safe nonneg vol live callback ps) ->
  safe_coordinator nonneg vol live c ->
  safe_result nonneg vol live (getPlayState callback c).
Proof.
  intros Hcb Hc. destruct c as [ps| |msg]; cbn.
  - specialize (Hcb ps Hc). unfold safe, outcome in Hcb.
    destruct (callback ps); exact Hcb.
  - split; [exact I|constructor].
  - split; [exact Hc|constructor].
Qed.

Lemma step_safe c x :
  safe_coordinator nonneg vol live c ->
  good_input nonneg vol live x ->
  safe_result nonneg vol live (step c x).
Proof.
  intros Hc Hx. destruct x as [p input].
  destruct Hx as (Hpos & Hp & Hvol). cbn [fst snd] in *.
  destruct input as [cmd|videoId streamUrl position|videoId|event|];
    cbn [step].
  - apply getPlayState_safe; [|exact Hc]. intros ps Hinv.
    destruct cmd; cbn [callback_of nonneg_positions] in *.
    + now apply Quit_safe.
    + now apply SetPlaystate_safe.
    + now apply updatePlaylist_safe.
    + now apply SetVideo_safe.
    + now apply RequestPlaylist_safe.
    + now apply Pause_safe.
    + now apply Play_safe.
    + now apply Seek_safe.
    + now apply SetVolume_safe.
    + now apply ChangeVolume_safe.
    + now apply RequestVolume_safe.
    + apply stop_safe. apply Hinv.
  - apply getPlayState_safe; [|exact Hc]. intros ps Hinv.
    now apply startPlaying_resolved_safe.
  - unfold prefetchVideoStream. destruct (videoId =? "")%string.
    + split; [exact Hc|constructor].
    + apply getPlayState_safe; [|exact Hc]. intros ps Hinv.
      now apply prefetchVideoStream_callback_safe.
  - destruct c as [ps| |msg]; cbn.
    + pose proof (run_event_safe p event ps Hc Hp) as H.
      unfold safe, outcome in H. destruct (run_event p event ps); exact H.
    + split; [exact I|constructor].
    + split; [exact Hc|constructor].
  - destruct c as [ps| |msg]; cbn.
    + split; [exact I|]. repeat constructor.
    + split; [exact I|constructor].
    + split; [exact Hc|constructor].
Qed.

Lemma steps_safe xs : forall c,
  safe_coordinator nonneg vol live c ->
  Forall (good_input nonneg vol live) xs ->
  safe_result nonneg vol live (steps c xs).
Proof.
  induction xs as [|x xs IH]; intros c Hc Hxs.
  - split; [exact Hc|constructor].
  - inversion Hxs as [|? ? Hx Hxs']; subst. cbn [steps].
    pose proof (step_safe c x Hc Hx) as H1.
    destruct (step c x) as [c1 tr1]. destruct H1 as [Hc1 Htr1].
    pose proof (IH c1 Hc1 Hxs') as H2.
    destruct (steps c1 xs) as [c2 tr2]. destruct H2 as [Hc2 Htr2].
    split; [exact Hc2|]. apply Forall_app. now split.
Qed.

Lemma initial_PlayState_safe initialVolume :
  (vol -> 0 <= initialVolume <= 100) ->
  safe_coordinator nonneg vol live (Running (initial_PlayState initialVolume)).
Proof.
  intros Hv. cbn. unfold initial_PlayState. safe_solve.
Qed.

End Safety.

(** ** Safety of the coordinator over all runs *)

Lemma nonneg_input_good xs :
  Forall nonneg_input xs -> Forall (good_input True False False) xs.
Proof.
  apply Forall_impl. intros [p x] [Hx Hp].
  split; [intros _; exact Hx|split; [split|intros []]].
  - intros _. exact Hp.
  - intros [].
Qed.

Lemma any_input_good xs : Forall (good_input False False False) xs.
Proof.
  apply Forall_forall. intros x _.
  split; [|split; [split|]]; intros [].
Qed.


Lemma volume_input_good xs :
  Forall volume_input xs -> Forall (good_input False True False) xs.
Proof.
  apply Forall_impl. intros [p x] Hx.
  split; [intros []|split; [split; intros []|intros _; exact Hx]].
Qed.

(** The inputs of a concrete run are as assumed. *)
Ltac inputs_ok :=
  repeat (apply Forall_cons;
          [ first [ split; cbn [fst snd nonneg_positions];
                    first [exact I | lia]
                  | cbn; first [exact I | lia] ] |]);
  apply Forall_nil.

(** Every state-change event that the coordinator sends carries one of
    the five states and a non-negative position, over every run from [New],
    if the positions that the callers pass and that the backend answers are
    non-negative. *)
Theorem state_changes_are_well_formed initialVolume xs state position :
  Forall nonneg_input xs ->
  In (SendStateChange state position) (snd (steps (New initialVolume) xs)) ->
  known_state state /\ 0 <= position.
Proof.
  intros Hxs Hin.
  pose proof (steps_safe True False False xs (New initialVolume)
                (initial_PlayState_safe True False False initialVolume
                   (fun f : False => match f with end))
                (nonneg_input_good xs Hxs)) as [_ Htr].
  rewrite Forall_forall in Htr. apply Htr in Hin.
  destruct Hin as [Hs Hp]. split; [exact Hs|exact (Hp I)].
Qed.

Lemma state_changes_are_well_formed_witness :
  known_state STATE_PAUSED /\ 0 <= 3.
Proof.
  apply (state_changes_are_well_formed 80 play_then_pause STATE_PAUSED 3).
  - inputs_ok.
  - vm_compute. tauto.
Defined.

(** Every snapshot that [RequestPlaylist] sends carries one of the five
    states and a non-negative position, over every run from [New]: a
    position that [getPosition] returns is checked. *)
Theorem snapshots_are_well_formed initialVolume xs playlist index position
        state :
  In (SendPlaylist playlist index position state)
     (snd (steps (New initialVolume) xs)) ->
  known_state state /\ 0 <= position.
Proof.
  intros Hin.
  pose proof (steps_safe False False False xs (New initialVolume)
                (initial_PlayState_safe False False False initialVolume
                   (fun f : False => match f with end))
                (any_input_good xs)) as [_ Htr].
  rewrite Forall_forall in Htr. apply Htr in Hin. exact Hin.
Qed.

Lemma snapshots_are_well_formed_witness :
  known_state STATE_PLAYING /\ 0 <= 9.
Proof.
  apply (snapshots_are_well_formed 80 snapshot_while_playing ["A"] 0 9
           STATE_PLAYING).
  vm_compute. tauto.
Defined.

(** Whatever the calls, results and events, the coordinator panics only
    with one of five messages: an index outside the playlist, a playlist
    update that lacks the current video, an update of an empty playlist
    while playing, the backend's failure to tell its position, a negative
    position.  It never reaches the panics [unknown state] and
    [unknown nextState]. *)
Theorem panics_are_of_five_kinds initialVolume xs msg :
  fst (steps (New initialVolume) xs) = Crashed msg ->
  msg = "runtime error: index out of range"
  \/ msg = "current video does not exist in new playlist"
  \/ msg = "empty playlist while playing"
  \/ msg = "getPosition: backend error"
  \/ msg = "got position < 0".
Proof.
  intros Hrun.
  pose proof (steps_safe False False False xs (New initialVolume)
                (initial_PlayState_safe False False False initialVolume
                   (fun f : False => match f with end))
                (any_input_good xs)) as [Hc _].
  rewrite Hrun in Hc. cbn in Hc. unfold expected_panic in Hc. tauto.
Qed.

Lemma panics_are_of_five_kinds_witness :
  fst (steps (New 80) seek_on_new_player)
  = Crashed "runtime error: index out of range"
  /\ ("runtime error: index out of range"
      = "runtime error: index out of range"
      \/ "runtime error: index out of range"
         = "current video does not exist in new playlist"
      \/ "runtime error: index out of range" = "empty playlist while playing"
      \/ "runtime error: index out of range" = "getPosition: backend error"
      \/ "runtime error: index out of range" = "got position < 0").
Proof.
  assert (H0 : fst (steps (New 80) seek_on_new_player)
               = Crashed "runtime error: index out of range")
    by reflexivity.
  exact (conj H0 (panics_are_of_five_kinds 80 seek_on_new_player _ H0)).
Defined.



(** At every observation point of every run from [New], the index is
    below the length of the playlist unless the playlist is empty, and
    [nextState] is unset or one of Playing and Paused. *)
Theorem index_stays_below_length initialVolume xs ps :
  fst (steps (New initialVolume) xs) = Running ps ->
  index_below_length ps /\ queued_state (nextState ps).
Proof.
  intros Hrun.
  pose proof (steps_safe False False False xs (New initialVolume)
                (initial_PlayState_safe False False False initialVolume
                   (fun f : False => match f with end))
                (any_input_good xs)) as [Hc _].
  rewrite Hrun in Hc. cbn in Hc. destruct Hc as [(_ & _ & Hq & _) Hi].
  now split.
Qed.

Lemma index_stays_below_length_witness :
  fst (steps (New 80) pause_during_seek)
  = Running (mkPlayState ["A"] 0 STATE_PLAYING 80 7 STATE_PLAYING false (-1))
  /\ index_below_length
       (mkPlayState ["A"] 0 STATE_PLAYING 80 7 STATE_PLAYING false (-1))
  /\ queued_state (-1).
Proof.
  assert (H0 : fst (steps (New 80) pause_during_seek)
               = Running (mkPlayState ["A"] 0 STATE_PLAYING 80 7
                            STATE_PLAYING false (-1)))
    by reflexivity.
  exact (conj H0 (index_stays_below_length 80 pause_during_seek _ H0)).
Defined.

(** If the initial volume and every volume that [SetVolume] is given
    are within 0..100, then over every run from [New] the stored volume is
    within 0..100, so is every volume sent to a caller or to the backend,
    and the volume that [play] is given is that or unset (-1). *)
Theorem volumes_stay_within_range initialVolume xs :
  0 <= initialVolume <= 100 ->
  Forall volume_input xs ->
  (forall ps, fst (steps (New initialVolume) xs) = Running ps ->
              0 <= Volume ps <= 100)
  /\ (forall volume,
        In (SendVolume volume) (snd (steps (New initialVolume) xs))
        \/ In (PlayerSetVolume volume) (snd (steps (New initialVolume) xs)) ->
        0 <= volume <= 100)
  /\ (forall streamUrl position volume,
        In (PlayerPlay streamUrl position volume)
           (snd (steps (New initialVolume) xs)) ->
        volume = -1 \/ 0 <= volume <= 100).
Proof.
  intros Hv Hxs.
  pose proof (steps_safe False True False xs (New initialVolume)
                (initial_PlayState_safe False True False initialVolume
                   (fun _ => Hv))
                (volume_input_good xs Hxs)) as [Hc Htr].
  rewrite Forall_forall in Htr. split; [|split].
  - intros ps Hrun. rewrite Hrun in Hc. cbn in Hc.
    destruct Hc as [(_ & _ & _ & _ & H) _]. exact (H I).
  - intros volume [Hin|Hin]; apply Htr in Hin; exact (Hin I).
  - intros streamUrl position volume Hin. apply Htr in Hin. exact (Hin I).
Qed.

Lemma volumes_stay_within_range_witness :
  (forall ps, fst (steps (New 80) three_volume_calls) = Running ps ->
              0 <= Volume ps <= 100)
  /\ (forall volume,
        In (SendVolume volume) (snd (steps (New 80) three_volume_calls))
        \/ In (PlayerSetVolume volume)
              (snd (steps (New 80) three_volume_calls)) ->
        0 <= volume <= 100)
  /\ (forall streamUrl position volume,
        In (PlayerPlay streamUrl position volume)
           (snd (steps (New 80) three_volume_calls)) ->
        volume = -1 \/ 0 <= volume <= 100).
Proof.
  apply (volumes_stay_within_range 80 three_volume_calls); [lia|inputs_ok].
Defined.

(** ** Starting a video *)

(** [startPlaying] on a video of the playlist: the backend is stopped if it
    plays, the state is Buffering, the event is sent and the resolution
    starts. *)
Lemma startPlaying_starts p ps position videoId :
  slice_get (Playlist ps) (Index ps) = Some videoId ->
  reported_position ps position <> -1 ->
  startPlaying p position ps
  = Done tt
      (mkPlayState (Playlist ps) (Index ps) STATE_BUFFERING (Volume ps)
         (reported_position ps position) (State_ ps) (newVolume ps)
         (nextState ps))
      ((if State_ ps =? STATE_PLAYING then [PlayerStop] else [])
         ++ [SendStateChange STATE_BUFFERING (reported_position ps position);
             GoGetStream videoId position]).
Proof.
  intros Hcur Hpos. apply Z.eqb_neq in Hpos. unfold reported_position in *.
  unfold startPlaying, setPlayState, index_or_panic.
  cbv [bind get modify emit ret]. fields.
  destruct (State_ ps =? STATE_PLAYING); cbv iota beta; fields;
    rewrite Hpos; cbn; rewrite Hcur; reflexivity.
Qed.

(** What [SetPlaystate] does when the state is not the one it asks for:
    the playlist and the index are stored and the video is started. *)
Lemma SetPlaystate_restarts p ps playlist index position videoId :
  slice_get playlist index = Some videoId ->
  ~ already_buffering_at ps position
  \/ (exists cur, slice_get (Playlist ps) (Index ps) = Some cur
                  /\ cur <> videoId) ->
  SetPlaystate p playlist index position ps
  = startPlaying p position (set_Index index (set_Playlist playlist ps)).
Proof.
  intros Hnew Hother. pose proof (slice_get_Some _ _ _ Hnew) as Hidx.
  unfold SetPlaystate, index_or_panic. cbv [bind get modify ret].
  destruct ((State_ ps =? STATE_BUFFERING)
            && (bufferingPosition ps =? position)
            && (Index ps <? len (Playlist ps))) eqn:Htest.
  - tests. destruct Hother as [H2|(cur & Hcur & Hne)];
      [exfalso; apply H2; now repeat split|].
    rewrite Hnew, Hcur. apply String.eqb_neq in Hne.
    rewrite String.eqb_sym, Hne. cbv iota beta.
    replace (0 <? len playlist) with true by (symmetry; apply Z.ltb_lt; lia).
    destruct (startPlaying p position _); reflexivity.
  - cbv iota beta.
    replace (0 <? len playlist) with true by (symmetry; apply Z.ltb_lt; lia).
    destruct (startPlaying p position _); reflexivity.
Qed.

(** [SetPlaystate] with an index inside the new playlist.  Unless the
    state is Buffering at the position asked for with the index below the
    length of the playlist, or when it is and the video at the index is
    another one: the playlist and the index are stored, the backend is
    stopped if it plays, the state becomes Buffering, one Buffering event
    is sent and the resolution of the video starts at the position asked
    for; while the state is Seeking, the position stored and sent is the
    target of the seek instead.  When the state is Buffering at that
    position with the index below the length and no video at the index
    (the index is negative), the coordinator panics on the index and
    nothing is sent. *)
Theorem SetPlaystate_starts_the_video p ps playlist index position videoId :
  slice_get playlist index = Some videoId ->
  (reported_position ps position <> -1 ->
   ~ already_buffering_at ps position
   \/ (exists cur, slice_get (Playlist ps) (Index ps) = Some cur
                   /\ cur <> videoId) ->
   call p (CallSetPlaystate playlist index position) (Running ps)
   = (Running (mkPlayState playlist index STATE_BUFFERING (Volume ps)
                 (reported_position ps position) (State_ ps) (newVolume ps)
                 (nextState ps)),
      (if State_ ps =? STATE_PLAYING then [PlayerStop] else [])
        ++ [SendStateChange STATE_BUFFERING (reported_position ps position);
            GoGetStream videoId position]))
  /\ (already_buffering_at ps position ->
      slice_get (Playlist ps) (Index ps) = None ->
      call p (CallSetPlaystate playlist index position) (Running ps)
      = (Crashed "runtime error: index out of range", [])).
Proof.
  intros Hnew. unfold call, getPlayState. cbn [callback_of]. split.
  - intros Hpos Hother.
    rewrite (SetPlaystate_restarts p ps playlist index position videoId Hnew
               Hother).
    rewrite (startPlaying_starts p
               (set_Index index (set_Playlist playlist ps)) position videoId
               Hnew Hpos).
    reflexivity.
  - intros (Hst & Hbp & Hidx) Hcur.
    apply Z.eqb_eq in Hst. apply Z.eqb_eq in Hbp. apply Z.ltb_lt in Hidx.
    unfold SetPlaystate, index_or_panic. cbv [bind get ret].
    rewrite Hst, Hbp, Hidx, Hnew, Hcur. reflexivity.
Qed.

Lemma SetPlaystate_starts_the_video_witness :
  call None (CallSetPlaystate ["A"; "B"; "C"] 2 30) (Running playing_A)
  = (Running (mkPlayState ["A"; "B"; "C"] 2 STATE_BUFFERING 80 30
                STATE_PLAYING false (-1)),
     [PlayerStop; SendStateChange STATE_BUFFERING 30; GoGetStream "C" 30])
  /\ fst (steps (New 80) stop_while_buffering_then_update)
     = Running (mkPlayState [] (-1) STATE_BUFFERING 80 0 STATE_STOPPED false
                  (-1))
  /\ call None (CallSetPlaystate ["B"] 0 0)
          (Running (mkPlayState [] (-1) STATE_BUFFERING 80 0 STATE_STOPPED
                      false (-1)))
     = (Crashed "runtime error: index out of range", []).
Proof.
  split; [|split].
  - apply (proj1 (SetPlaystate_starts_the_video None playing_A
                    ["A"; "B"; "C"] 2 30 "C" eq_refl)).
    + discriminate.
    + left. intros [H _]. discriminate H.
  - reflexivity.
  - apply (proj2 (SetPlaystate_starts_the_video None
                    (mkPlayState [] (-1) STATE_BUFFERING 80 0 STATE_STOPPED
                       false (-1))
                    ["B"] 0 0 "B" eq_refl)).
    + repeat split.
    + reflexivity.
Defined.

(** [startPlaying] with no video at the index: the panic comes after the
    backend was stopped and the Buffering event was sent. *)
Lemma startPlaying_outside_playlist p ps position :
  slice_get (Playlist ps) (Index ps) = None ->
  reported_position ps position <> -1 ->
  startPlaying p position ps
  = Panicked "runtime error: index out of range"
      ((if State_ ps =? STATE_PLAYING then [PlayerStop] else [])
         ++ [SendStateChange STATE_BUFFERING
               (reported_position ps position)]).
Proof.
  intros Hcur Hpos. apply Z.eqb_neq in Hpos. unfold reported_position in *.
  unfold startPlaying, setPlayState, index_or_panic.
  cbv [bind get modify emit ret]. fields.
  destruct (State_ ps =? STATE_PLAYING); cbv iota beta; fields;
    rewrite Hpos; cbn; rewrite Hcur; reflexivity.
Qed.

Lemma already_buffering_at_test ps position :
  (State_ ps =? STATE_BUFFERING) && (bufferingPosition ps =? position)
  && (Index ps <? len (Playlist ps)) = true
  <-> already_buffering_at ps position.
Proof.
  unfold already_buffering_at.
  rewrite !andb_true_iff, !Z.eqb_eq, Z.ltb_lt. tauto.
Qed.

(** [SetPlaystate] does not check its index.  With an index outside a
    playlist that has entries, the coordinator panics: at once when the
    state is Buffering at the position asked for, otherwise after the
    playlist and the index were stored, the backend was stopped if it
    played and the Buffering event was sent. *)
Theorem SetPlaystate_index_outside_playlist p ps playlist index position :
  playlist <> [] ->
  slice_get playlist index = None ->
  reported_position ps position <> -1 ->
  (already_buffering_at ps position ->
   call p (CallSetPlaystate playlist index position) (Running ps)
   = (Crashed "runtime error: index out of range", []))
  /\ (~ already_buffering_at ps position ->
      call p (CallSetPlaystate playlist index position) (Running ps)
      = (Crashed "runtime error: index out of range",
         (if State_ ps =? STATE_PLAYING then [PlayerStop] else [])
           ++ [SendStateChange STATE_BUFFERING
                 (reported_position ps position)])).
Proof.
  intros Hne Hnew Hpos.
  assert (Hlen : (0 <? len playlist) = true).
  { apply Z.ltb_lt. destruct playlist; [congruence|].
    unfold len. cbn [List.length]. lia. }
  unfold call, getPlayState. cbn [callback_of].
  unfold SetPlaystate, index_or_panic. cbv [bind get modify ret].
  split; intros Hat.
  - apply already_buffering_at_test in Hat. rewrite Hat, Hnew. reflexivity.
  - destruct ((State_ ps =? STATE_BUFFERING)
              && (bufferingPosition ps =? position)
              && (Index ps <? len (Playlist ps))) eqn:Htest;
      [apply already_buffering_at_test in Htest; contradiction|].
    cbv iota beta. rewrite Hlen.
    rewrite (startPlaying_outside_playlist p
               (set_Index index (set_Playlist playlist ps)) position Hnew
               Hpos).
    reflexivity.
Qed.

Lemma SetPlaystate_index_outside_playlist_witness :
  call None (CallSetPlaystate ["A"; "B"] 2 0) (Running buffering_B)
  = (Crashed "runtime error: index out of range", [])
  /\ call None (CallSetPlaystate ["A"; "B"] 2 0) (Running playing_A)
     = (Crashed "runtime error: index out of range",
        [PlayerStop; SendStateChange STATE_BUFFERING 0]).
Proof.
  split.
  - apply (proj1 (SetPlaystate_index_outside_playlist None buffering_B
                    ["A"; "B"] 2 0 ltac:(discriminate) eq_refl
                    ltac:(discriminate))).
    repeat split.
  - apply (proj2 (SetPlaystate_index_outside_playlist None playing_A
                    ["A"; "B"] 2 0 ltac:(discriminate) eq_refl
                    ltac:(discriminate))).
    intros [H _]. discriminate H.
Defined.

(** [SetPlaystate] with the empty playlist stops the backend and
    stores the empty playlist and the index, the state and the rest of the
    play state as they are; but when the state is Buffering at the
    position asked for and the index is below the length of the playlist,
    the coordinator panics on the index. *)
Theorem SetPlaystate_with_empty_playlist p ps index position :
  (~ already_buffering_at ps position ->
   call p (CallSetPlaystate [] index position) (Running ps)
   = (Running (mkPlayState [] index (State_ ps) (Volume ps)
                 (bufferingPosition ps) (previousState ps) (newVolume ps)
                 (nextState ps)), [PlayerStop]))
  /\ (already_buffering_at ps position ->
      call p (CallSetPlaystate [] index position) (Running ps)
      = (Crashed "runtime error: index out of range", [])).
Proof.
  assert (Hnew : slice_get (@nil string) index = None).
  { apply slice_get_None. change (len []) with 0. lia. }
  unfold call, getPlayState. cbn [callback_of].
  unfold SetPlaystate, index_or_panic. cbv [bind get modify ret].
  split; intros Hat.
  - destruct ((State_ ps =? STATE_BUFFERING)
              && (bufferingPosition ps =? position)
              && (Index ps <? len (Playlist ps))) eqn:Htest;
      [apply already_buffering_at_test in Htest; contradiction|].
    reflexivity.
  - apply already_buffering_at_test in Hat. rewrite Hat, Hnew. reflexivity.
Qed.

Lemma SetPlaystate_with_empty_playlist_witness :
  call None (CallSetPlaystate [] 0 0) (Running playing_A)
  = (Running (mkPlayState [] 0 STATE_PLAYING 80 (-1) STATE_BUFFERING false
                (-1)), [PlayerStop])
  /\ call None (CallSetPlaystate [] 0 0) (Running buffering_B)
     = (Crashed "runtime error: index out of range", []).
Proof.
  split.
  - apply (proj1 (SetPlaystate_with_empty_playlist None playing_A 0 0)).
    intros [H _]. discriminate H.
  - apply (proj2 (SetPlaystate_with_empty_playlist None buffering_B 0 0)).
    repeat split.
Defined.

(** ** Playlist updates *)

(** The duplicate warning is only logged once an occurrence was found. *)
Lemma setPlaylistIndex_loop_warned videoId rest : forall i newIndex r,
  setPlaylistIndex_loop videoId rest i newIndex = (r, true) -> 0 <= r.
Proof.
  induction rest as [|v rest IH]; intros i newIndex r;
    cbn [setPlaylistIndex_loop].
  - discriminate.
  - destruct (v =? videoId)%string.
    + destruct (Z.leb_spec 0 newIndex).
      * intros E. injection E as <-. exact H.
      * apply IH.
    + apply IH.
Qed.

(** A playlist update never touches playback.  When it returns, the
    new playlist is stored and the state, the volume, the buffering
    position and what is queued are as before; it sends no event and no
    command to the backend, only the duplicate warning and the prefetch of
    the next video, the latter exactly when the next video has changed.
    When it panics, nothing was sent. *)
Theorem UpdatePlaylist_keeps_playback p ps playlist c tr :
  call p (CallUpdatePlaylist playlist) (Running ps) = (c, tr) ->
  (forall ps',
      c = Running ps' ->
      Playlist ps' = playlist /\ State_ ps' = State_ ps
      /\ Volume ps' = Volume ps
      /\ bufferingPosition ps' = bufferingPosition ps
      /\ previousState ps' = previousState ps
      /\ newVolume ps' = newVolume ps /\ nextState ps' = nextState ps
      /\ (forall e, In e tr ->
                    e = Log "WARNING: videoId exists twice in playlist"
                    \/ e = GoPrefetchVideoStream (NextVideo ps'))
      /\ (In (GoPrefetchVideoStream (NextVideo ps')) tr
          <-> NextVideo ps' <> NextVideo ps))
  /\ (forall msg, c = Crashed msg -> tr = []).
Proof.
  unfold call, getPlayState. cbn [callback_of]. unfold UpdatePlaylist.
  assert (H : outcome (updatePlaylist playlist)
                (fun _ ps' tr =>
                   Playlist ps' = playlist /\ State_ ps' = State_ ps
                   /\ Volume ps' = Volume ps
                   /\ bufferingPosition ps' = bufferingPosition ps
                   /\ previousState ps' = previousState ps
                   /\ newVolume ps' = newVolume ps
                   /\ nextState ps' = nextState ps
                   /\ (forall e, In e tr ->
                         e = Log "WARNING: videoId exists twice in playlist"
                         \/ e = GoPrefetchVideoStream (NextVideo ps'))
                   /\ (In (GoPrefetchVideoStream (NextVideo ps')) tr
                       <-> NextVideo ps' <> NextVideo ps))
                (fun _ tr => tr = []) ps).
  { unfold updatePlaylist, setPlaylistIndex, index_or_panic. outcome_run.
    all: tests; cbn [app In].
    all: try match goal with
           | H : setPlaylistIndex_loop _ _ _ _ = (_, true) |- _ =>
               apply setPlaylistIndex_loop_warned in H
           end.
    all: repeat split; intros;
      repeat match goal with
        | H : _ \/ _ |- _ => destruct H
        | H : False |- _ => destruct H
        end;
      subst; fields;
      try reflexivity; try discriminate; try lia; try congruence; auto. }
  unfold outcome in H. destruct (updatePlaylist playlist ps) as [[] ps1 tr1|];
    intros E; injection E as <- <-.
  - split; [|discriminate]. intros ps' E. injection E as <-. exact H.
  - split; [discriminate|]. intros _ _. exact H.
Qed.

Lemma UpdatePlaylist_keeps_playback_witness :
  call None (CallUpdatePlaylist ["B"; "C"]) (Running playing_B)
  = (Running (mkPlayState ["B"; "C"] 0 STATE_PLAYING 80 (-1)
                STATE_BUFFERING false (-1)), [])
  /\ State_ (mkPlayState ["B"; "C"] 0 STATE_PLAYING 80 (-1)
               STATE_BUFFERING false (-1)) = State_ playing_B
  /\ Volume (mkPlayState ["B"; "C"] 0 STATE_PLAYING 80 (-1)
               STATE_BUFFERING false (-1)) = Volume playing_B.
Proof.
  assert (H0 : call None (CallUpdatePlaylist ["B"; "C"]) (Running playing_B)
               = (Running (mkPlayState ["B"; "C"] 0 STATE_PLAYING 80 (-1)
                             STATE_BUFFERING false (-1)), []))
    by reflexivity.
  split; [exact H0|].
  destruct (proj1 (UpdatePlaylist_keeps_playback None playing_B ["B"; "C"]
                     _ _ H0) _ eq_refl) as (_ & H1 & H2 & _).
  exact (conj H1 H2).
Defined.

(** The update of a playlist with a current video that the new playlist
    has: the index moves to its first occurrence. *)
Lemma updatePlaylist_relocates playlist ps videoId :
  slice_get (Playlist ps) (Index ps) = Some videoId ->
  (1 <= count_occ string_dec playlist videoId)%nat ->
  exists k,
    nth_error playlist k = Some videoId
    /\ (forall j, (j < k)%nat -> nth_error playlist j <> Some videoId)
    /\ updatePlaylist playlist ps
       = Done tt (set_Index (Z.of_nat k) (set_Playlist playlist ps))
           ((if (2 <=? count_occ string_dec playlist videoId)%nat
             then [Log "WARNING: videoId exists twice in playlist"] else [])
              ++ (if negb (NextVideo (set_Index (Z.of_nat k)
                                        (set_Playlist playlist ps))
                           =? NextVideo ps)%string
                  then [GoPrefetchVideoStream
                          (NextVideo (set_Index (Z.of_nat k)
                                        (set_Playlist playlist ps)))]
                  else [])).
Proof.
  intros Hcur Hc. pose proof (slice_get_Some _ _ _ Hcur) as Hidx.
  assert (Hlen : (len (Playlist ps) =? 0) = false) by (apply Z.eqb_neq; lia).
  destruct (setPlaylistIndex_first videoId (set_Playlist playlist ps) Hc)
    as (k & Hk & Hfirst & Hset).
  cbn [Playlist set_Playlist] in Hk, Hfirst, Hset.
  exists k. split; [exact Hk|]. split; [exact Hfirst|].
  unfold updatePlaylist, index_or_panic. cbv [bind get ret modify emit].
  rewrite Hlen, Hcur. cbv beta iota. rewrite Hset.
  destruct (negb (NextVideo (set_Index (Z.of_nat k)
                               (set_Playlist playlist ps))
                  =? NextVideo ps)%string);
    destruct (2 <=? count_occ string_dec playlist videoId)%nat; reflexivity.
Qed.

Lemma slice_get_count playlist index (videoId : string) :
  slice_get playlist index = Some videoId ->
  (1 <= count_occ string_dec playlist videoId)%nat.
Proof.
  unfold slice_get. destruct (index <? 0); [discriminate|]. intros H.
  apply nth_error_In in H. now apply count_occ_In.
Qed.

(** [SetPlaystate] for the video that is being buffered, at the
    position it is buffered at, is a playlist update and nothing more: no
    event is sent and the resolution in flight goes on.  The index stored
    is that of the first occurrence of the video in the new playlist, at
    or below the index asked for. *)
Theorem SetPlaystate_of_the_video_being_buffered p ps playlist index position
        videoId :
  already_buffering_at ps position ->
  slice_get (Playlist ps) (Index ps) = Some videoId ->
  slice_get playlist index = Some videoId ->
  call p (CallSetPlaystate playlist index position) (Running ps)
  = call p (CallUpdatePlaylist playlist) (Running ps)
  /\ exists first tr,
      call p (CallSetPlaystate playlist index position) (Running ps)
      = (Running (mkPlayState playlist first STATE_BUFFERING (Volume ps)
                    position (previousState ps) (newVolume ps)
                    (nextState ps)), tr)
      /\ slice_get playlist first = Some videoId
      /\ first <= index
      /\ stateChanges tr = [].
Proof.
  intros Hat Hcur Hnew. pose proof Hat as (Hst & Hbp & _).
  apply already_buffering_at_test in Hat.
  assert (E : SetPlaystate p playlist index position ps
              = updatePlaylist playlist ps).
  { unfold SetPlaystate, index_or_panic. cbv [bind get ret].
    rewrite Hat, Hnew, Hcur. cbv beta iota. rewrite String.eqb_refl.
    destruct (updatePlaylist playlist ps); reflexivity. }
  unfold call, getPlayState. cbn [callback_of]. unfold UpdatePlaylist.
  rewrite E. split; [reflexivity|].
  destruct (updatePlaylist_relocates playlist ps videoId Hcur
              (slice_get_count _ _ _ Hnew)) as (k & Hk & Hfirst & ->).
  pose proof (slice_get_Some _ _ _ Hnew) as Hidx.
  exists (Z.of_nat k). eexists. split; [|split; [|split]].
  - rewrite <- Hst, <- Hbp. reflexivity.
  - unfold slice_get. destruct (Z.ltb_spec (Z.of_nat k) 0); [lia|].
    now rewrite Nat2Z.id.
  - destruct (Z.le_gt_cases (Z.of_nat k) index) as [|Hlt]; [assumption|].
    exfalso. apply (Hfirst (Z.to_nat index)); [lia|].
    unfold slice_get in Hnew. destruct (Z.ltb_spec index 0); [lia|].
    exact Hnew.
  - destruct (2 <=? count_occ string_dec playlist videoId)%nat;
      destruct (negb _); reflexivity.
Qed.

Lemma SetPlaystate_of_the_video_being_buffered_witness :
  call None (CallSetPlaystate ["B"; "A"; "B"] 2 0) (Running buffering_B)
  = call None (CallUpdatePlaylist ["B"; "A"; "B"]) (Running buffering_B)
  /\ exists first tr,
      call None (CallSetPlaystate ["B"; "A"; "B"] 2 0) (Running buffering_B)
      = (Running (mkPlayState ["B"; "A"; "B"] first STATE_BUFFERING 80 0
                    STATE_STOPPED false (-1)), tr)
      /\ slice_get ["B"; "A"; "B"] first = Some "B"
      /\ first <= 2
      /\ stateChanges tr = [].
Proof.
  apply (SetPlaystate_of_the_video_being_buffered None buffering_B
           ["B"; "A"; "B"] 2 0 "B").
  - repeat split.
  - reflexivity.
  - reflexivity.
Defined.

(** [SetVideo] looks the video up in the playlist by value.  With no
    occurrence the coordinator panics; otherwise the index becomes the
    first occurrence (the duplicate warning is logged if there are more),
    the backend is stopped if it plays, the state becomes Buffering, one
    Buffering event is sent and the resolution of the video starts. *)
Theorem SetVideo_starts_the_first_occurrence p ps videoId position :
  (count_occ string_dec (Playlist ps) videoId = 0%nat ->
   call p (CallSetVideo videoId position) (Running ps)
   = (Crashed "current video does not exist in new playlist", []))
  /\ ((1 <= count_occ string_dec (Playlist ps) videoId)%nat ->
      reported_position ps position <> -1 ->
      exists index,
        slice_get (Playlist ps) index = Some videoId
        /\ (forall j, j < index -> slice_get (Playlist ps) j <> Some videoId)
        /\ call p (CallSetVideo videoId position) (Running ps)
           = (Running (mkPlayState (Playlist ps) index STATE_BUFFERING
                         (Volume ps) (reported_position ps position)
                         (State_ ps) (newVolume ps) (nextState ps)),
              (if (2 <=? count_occ string_dec (Playlist ps) videoId)%nat
               then [Log "WARNING: videoId exists twice in playlist"]
               else [])
                ++ (if State_ ps =? STATE_PLAYING then [PlayerStop] else [])
                ++ [SendStateChange STATE_BUFFERING
                      (reported_position ps position);
                    GoGetStream videoId position])).
Proof.
  unfold call, getPlayState. cbn [callback_of]. unfold SetVideo.
  split.
  - intros Hc. unfold bind. rewrite (setPlaylistIndex_missing _ _ Hc).
    reflexivity.
  - intros Hc Hpos.
    destruct (setPlaylistIndex_first videoId ps Hc)
      as (k & Hk & Hfirst & Hset).
    assert (Hslice : slice_get (Playlist ps) (Z.of_nat k) = Some videoId).
    { unfold slice_get. destruct (Z.ltb_spec (Z.of_nat k) 0); [lia|].
      now rewrite Nat2Z.id. }
    exists (Z.of_nat k). split; [exact Hslice|]. split.
    + intros j Hj. unfold slice_get.
      destruct (Z.ltb_spec j 0); [discriminate|]. apply Hfirst. lia.
    + unfold bind. rewrite Hset.
      rewrite (startPlaying_starts p (set_Index (Z.of_nat k) ps) position
                 videoId Hslice Hpos).
      reflexivity.
Qed.

Lemma SetVideo_starts_the_first_occurrence_witness :
  call None (CallSetVideo "C" 0) (Running playing_A)
  = (Crashed "current video does not exist in new playlist", [])
  /\ exists index,
      slice_get (Playlist playing_B) index = Some "C"
      /\ (forall j, j < index -> slice_get (Playlist playing_B) j <> Some "C")
      /\ call None (CallSetVideo "C" 5) (Running playing_B)
         = (Running (mkPlayState (Playlist playing_B) index STATE_BUFFERING
                       80 5 STATE_PLAYING false (-1)),
            [PlayerStop; SendStateChange STATE_BUFFERING 5;
             GoGetStream "C" 5]).
Proof.
  split.
  - apply (proj1 (SetVideo_starts_the_first_occurrence None playing_A "C" 0)).
    reflexivity.
  - apply (proj2 (SetVideo_starts_the_first_occurrence None playing_B "C" 5)).
    + cbn. lia.
    + discriminate.
Defined.

(** ** Playback from start to pause *)

(** The final play state, up to the tests made on the way, and the trace. *)
Ltac returns_fields :=
  split;
  [ first [ reflexivity
          | cbv [set_Playlist set_Index set_State set_Volume
                 set_bufferingPosition set_previousState set_newVolume
                 set_nextState]; fields; tests; congruence ]
  | first [ reflexivity | cbn; tests; congruence ] ].

(** A resolution that answers for the current video: the stream is played,
    with the pending volume if there is one. *)
Lemma startPlaying_resolved_plays p ps videoId streamUrl position :
  slice_get (Playlist ps) (Index ps) = Some videoId ->
  streamUrl <> "" ->
  startPlaying_resolved p videoId streamUrl position ps
  = Done tt (set_newVolume false ps)
      [PlayerPlay streamUrl position (if newVolume ps then Volume ps else -1);
       GoPrefetchVideoStream (NextVideo ps)].
Proof.
  intros Hcur Hurl. apply String.eqb_neq in Hurl.
  unfold startPlaying_resolved, Video. cbv [bind get modify emit ret].
  rewrite Hcur, String.eqb_refl, Hurl. cbv beta iota.
  destruct ps as [pl idx st vol bp prev [|] nx]; reflexivity.
Qed.

(** The backend reports playing outside a seek. *)
Lemma run_event_playing ps (d : Duration) :
  State_ ps <> STATE_SEEKING ->
  0 <= d ->
  run_event (Some d) STATE_PLAYING ps
  = Done tt
      (mkPlayState (Playlist ps) (Index ps) STATE_PLAYING (Volume ps) (-1)
         (State_ ps) false (nextState ps))
      ((if newVolume ps then [PlayerSetVolume (Volume ps)] else [])
         ++ [SendStateChange STATE_PLAYING d]).
Proof.
  intros Hst Hd. apply Z.eqb_neq in Hst.
  destruct ps as [pl idx st vol bp prev nv nx]. cbn in Hst.
  apply returns_Done. unfold run_event, setPlayState, getPosition.
  returns_run; returns_fields.
Qed.

(** The backend reports paused while the state is Playing, Paused or
    Stopped. *)
Lemma run_event_paused ps (d : Duration) :
  State_ ps <> STATE_SEEKING ->
  State_ ps <> STATE_BUFFERING ->
  0 <= d ->
  run_event (Some d) STATE_PAUSED ps
  = Done tt
      (mkPlayState (Playlist ps) (Index ps) STATE_PAUSED (Volume ps) (-1)
         (State_ ps) (newVolume ps) (nextState ps))
      [SendStateChange STATE_PAUSED d].
Proof.
  intros Hst Hbuf Hd. apply Z.eqb_neq in Hst. apply Z.eqb_neq in Hbuf.
  destruct ps as [pl idx st vol bp prev nv nx]. cbn in Hst, Hbuf.
  apply returns_Done. unfold run_event, setPlayState, getPosition.
  returns_run; returns_fields.
Qed.

(** [Seek] while Playing or Paused. *)
Lemma Seek_seeks p ps t :
  State_ ps = STATE_PLAYING \/ State_ ps = STATE_PAUSED ->
  t <> -1 ->
  Seek p t ps
  = Done tt
      (mkPlayState (Playlist ps) (Index ps) STATE_SEEKING (Volume ps) t
         (State_ ps) (newVolume ps) (nextState ps))
      [SendStateChange STATE_SEEKING t; PlayerSetPosition t].
Proof.
  intros Hst Ht. apply Z.eqb_neq in Ht.
  destruct ps as [pl idx st vol bp prev nv nx]. cbn in Hst.
  apply returns_Done. unfold Seek, setPlayState, getPosition.
  destruct Hst as [Hst|Hst]; subst st; returns_run; returns_fields.
Qed.

(** The backend reports the end of a seek with nothing queued that differs
    from the state before the seek. *)
Lemma run_event_seek_complete p ps :
  State_ ps = STATE_SEEKING ->
  previousState ps = STATE_PLAYING \/ previousState ps = STATE_PAUSED ->
  nextState ps = -1 \/ nextState ps = previousState ps ->
  bufferingPosition ps <> -1 ->
  run_event p STATE_PLAYING ps
  = Done tt
      (mkPlayState (Playlist ps) (Index ps) (previousState ps) (Volume ps)
         (-1) STATE_SEEKING false (nextState ps))
      ((if newVolume ps then [PlayerSetVolume (Volume ps)] else [])
         ++ [SendStateChange (previousState ps) (bufferingPosition ps)]).
Proof.
  intros Hst Hprev Hnext Hbp. apply Z.eqb_neq in Hbp.
  destruct ps as [pl idx st vol bp prev nv nx].
  cbn in Hst, Hprev, Hnext, Hbp. subst st.
  assert (Htest : negb (nx =? -1) && negb (prev =? nx) = false).
  { destruct Hnext as [E|E]; rewrite E; [reflexivity|].
    rewrite Z.eqb_refl. apply andb_false_r. }
  apply returns_Done. unfold run_event, setPlayState, getPosition.
  destruct Hprev as [Hprev|Hprev]; subst prev; returns_run; returns_fields.
Qed.

(** The backend reports the end of a seek with a call queued that differs
    from the state before the seek. *)
Lemma run_event_seek_complete_queued p ps :
  State_ ps = STATE_SEEKING ->
  (previousState ps = STATE_PLAYING /\ nextState ps = STATE_PAUSED)
  \/ (previousState ps = STATE_PAUSED /\ nextState ps = STATE_PLAYING) ->
  run_event p STATE_PLAYING ps
  = Done tt
      (mkPlayState (Playlist ps) (Index ps) (previousState ps) (Volume ps)
         (bufferingPosition ps) (previousState ps) false (-1))
      ((if newVolume ps then [PlayerSetVolume (Volume ps)] else [])
         ++ [if nextState ps =? STATE_PLAYING then PlayerResume
             else PlayerPause]).
Proof.
  intros Hst Hq.
  destruct ps as [pl idx st vol bp prev nv nx]. cbn in Hst, Hq. subst st.
  destruct Hq as [[H1 H2]|[H1 H2]]; subst prev nx; destruct nv; reflexivity.
Qed.

Lemma reported_position_id ps position :
  State_ ps <> STATE_SEEKING -> reported_position ps position = position.
Proof.
  intros H. apply Z.eqb_neq in H. unfold reported_position. now rewrite H.
Qed.

(** Unfold a run down to the handlers. *)
Ltac run_steps :=
  cbn [steps step call callback_of getPlayState run_select_event
       Playlist Index State_ Volume bufferingPosition previousState
       newVolume nextState set_Playlist set_Index set_State set_Volume
       set_bufferingPosition set_previousState set_newVolume set_nextState].

(** From Stopped, Playing or Paused, [SetPlaystate] on a video of the
    new playlist, the answer of its resolution and the backend's playing
    event take the coordinator to Playing: one Buffering event at the
    position asked for, the stream played from that position with the
    pending volume if there is one, the prefetch of the next video, and one
    Playing event at the position the backend tells. *)
Theorem SetPlaystate_to_Playing ps playlist index position videoId streamUrl
        (d : Duration) :
  State_ ps = STATE_STOPPED \/ State_ ps = STATE_PLAYING
  \/ State_ ps = STATE_PAUSED ->
  slice_get playlist index = Some videoId ->
  streamUrl <> "" ->
  position <> -1 ->
  0 <= d ->
  steps (Running ps)
        (set_resolve_play playlist index position videoId streamUrl d)
  = (Running (mkPlayState playlist index STATE_PLAYING (Volume ps) (-1)
                STATE_BUFFERING false (nextState ps)),
     (if State_ ps =? STATE_PLAYING then [PlayerStop] else [])
       ++ [SendStateChange STATE_BUFFERING position;
           GoGetStream videoId position;
           PlayerPlay streamUrl position
             (if newVolume ps then Volume ps else -1);
           GoPrefetchVideoStream
             (NextVideo (set_Index index (set_Playlist playlist ps)));
           SendStateChange STATE_PLAYING d]).
Proof.
  intros Hst Hnew Hurl Hpos Hd.
  assert (Hseek : State_ ps <> STATE_SEEKING)
    by (destruct Hst as [H|[H|H]]; rewrite H; discriminate).
  assert (Hbuf : ~ already_buffering_at ps position)
    by (intros [E _]; destruct Hst as [H|[H|H]]; rewrite H in E;
        discriminate E).
  unfold set_resolve_play. run_steps.
  rewrite (SetPlaystate_restarts None ps playlist index position videoId Hnew
             (or_introl Hbuf)).
  pose proof (reported_position_id
                (set_Index index (set_Playlist playlist ps)) position Hseek)
    as Hrep.
  rewrite (startPlaying_starts None
             (set_Index index (set_Playlist playlist ps)) position videoId
             Hnew)
    by (rewrite Hrep; exact Hpos).
  rewrite Hrep. run_steps.
  rewrite (startPlaying_resolved_plays None
             (mkPlayState playlist index STATE_BUFFERING (Volume ps) position
                (State_ ps) (newVolume ps) (nextState ps))
             videoId streamUrl position Hnew Hurl).
  run_steps.
  rewrite (run_event_playing
             (set_newVolume false
                (mkPlayState playlist index STATE_BUFFERING (Volume ps)
                   position (State_ ps) (newVolume ps) (nextState ps)))
             d ltac:(discriminate) Hd).
  run_steps. cbn [app]. rewrite <- app_assoc. reflexivity.
Qed.

Lemma SetPlaystate_to_Playing_witness :
  steps (Running paused_B) (set_resolve_play ["C"; "D"] 0 12 "C" "url" 13)
  = (Running (mkPlayState ["C"; "D"] 0 STATE_PLAYING 80 (-1) STATE_BUFFERING
                false (-1)),
     [SendStateChange STATE_BUFFERING 12; GoGetStream "C" 12;
      PlayerPlay "url" 12 (-1); GoPrefetchVideoStream "D";
      SendStateChange STATE_PLAYING 13]).
Proof.
  apply (SetPlaystate_to_Playing paused_B ["C"; "D"] 0 12 "C" "url" 13).
  - right. right. reflexivity.
  - reflexivity.
  - discriminate.
  - discriminate.
  - lia.
Defined.

Lemma Pause_while_playing ps :
  State_ ps = STATE_PLAYING -> Pause ps = Done tt ps [PlayerPause].
Proof. intros H. unfold Pause. cbv [bind get emit]. now rewrite H. Qed.

Lemma Play_while_paused p ps :
  State_ ps = STATE_PAUSED -> Play p ps = Done tt ps [PlayerResume].
Proof. intros H. unfold Play. cbv [bind get emit]. now rewrite H. Qed.

Lemma Pause_while_seeking ps :
  State_ ps = STATE_SEEKING ->
  Pause ps = Done tt (set_nextState STATE_PAUSED ps) [].
Proof. intros H. unfold Pause. cbv [bind get modify]. now rewrite H. Qed.

Lemma Play_while_seeking p ps :
  State_ ps = STATE_SEEKING ->
  Play p ps = Done tt (set_nextState STATE_PLAYING ps) [].
Proof. intros H. unfold Play. cbv [bind get modify]. now rewrite H. Qed.

(** Pause and resume.  While Playing, [Pause] only tells the backend
    to pause; the state becomes Paused, with one Paused event, when the
    backend reports it.  [Play] then only tells the backend to resume, and
    the state is Playing again, with one Playing event, when the backend
    reports it.  Each event carries the position the backend tells; the
    playlist, the index and the volume are as before. *)
Theorem pause_resume_round_trip ps (p1 p2 : Duration) :
  State_ ps = STATE_PLAYING ->
  0 <= p1 ->
  0 <= p2 ->
  steps (Running ps) (pause_then_resume p1 p2)
  = (Running (mkPlayState (Playlist ps) (Index ps) STATE_PLAYING (Volume ps)
                (-1) STATE_PAUSED false (nextState ps)),
     [PlayerPause; SendStateChange STATE_PAUSED p1; PlayerResume]
       ++ (if newVolume ps then [PlayerSetVolume (Volume ps)] else [])
       ++ [SendStateChange STATE_PLAYING p2]).
Proof.
  intros Hst Hp1 Hp2. unfold pause_then_resume. run_steps.
  rewrite (Pause_while_playing ps Hst). run_steps.
  rewrite (run_event_paused ps p1)
    by (try rewrite Hst; try discriminate; exact Hp1).
  run_steps.
  rewrite (Play_while_paused None
             (mkPlayState (Playlist ps) (Index ps) STATE_PAUSED (Volume ps)
                (-1) (State_ ps) (newVolume ps) (nextState ps)) eq_refl).
  run_steps.
  rewrite (run_event_playing
             (mkPlayState (Playlist ps) (Index ps) STATE_PAUSED (Volume ps)
                (-1) (State_ ps) (newVolume ps) (nextState ps))
             p2 ltac:(discriminate) Hp2).
  run_steps. cbn [app]. rewrite app_nil_r. reflexivity.
Qed.

Lemma pause_resume_round_trip_witness :
  steps (Running playing_B) (pause_then_resume 40 41)
  = (Running (mkPlayState ["A"; "B"; "C"] 1 STATE_PLAYING 80 (-1)
                STATE_PAUSED false (-1)),
     [PlayerPause; SendStateChange STATE_PAUSED 40; PlayerResume;
      SendStateChange STATE_PLAYING 41]).
Proof.
  apply (pause_resume_round_trip playing_B 40 41); [reflexivity|lia|lia].
Defined.

(** ** Seeking *)

(** A seek while Playing or Paused, with nothing queued that differs
    from that state: [Seek(t)] sends one Seeking event at [t] and tells the
    backend to seek; when the backend reports the seek as complete, the
    state is the one before the seek again and one event for that state is
    sent, at position [t] and not at a position asked of the backend. *)
Theorem seek_returns_to_the_state_before ps t :
  State_ ps = STATE_PLAYING \/ State_ ps = STATE_PAUSED ->
  nextState ps = -1 \/ nextState ps = State_ ps ->
  t <> -1 ->
  steps (Running ps) (seek_and_complete t)
  = (Running (mkPlayState (Playlist ps) (Index ps) (State_ ps) (Volume ps)
                (-1) STATE_SEEKING false (nextState ps)),
     [SendStateChange STATE_SEEKING t; PlayerSetPosition t]
       ++ (if newVolume ps then [PlayerSetVolume (Volume ps)] else [])
       ++ [SendStateChange (State_ ps) t]).
Proof.
  intros Hst Hnext Ht. unfold seek_and_complete. run_steps.
  rewrite (Seek_seeks None ps t Hst Ht). run_steps.
  rewrite (run_event_seek_complete None
             (mkPlayState (Playlist ps) (Index ps) STATE_SEEKING (Volume ps)
                t (State_ ps) (newVolume ps) (nextState ps))
             eq_refl Hst Hnext Ht).
  run_steps. cbn [app]. rewrite app_nil_r. reflexivity.
Qed.

Lemma seek_returns_to_the_state_before_witness :
  steps (Running playing_B) (seek_and_complete 30)
  = (Running (mkPlayState ["A"; "B"; "C"] 1 STATE_PLAYING 80 (-1)
                STATE_SEEKING false (-1)),
     [SendStateChange STATE_SEEKING 30; PlayerSetPosition 30;
      SendStateChange STATE_PLAYING 30]).
Proof.
  apply (seek_returns_to_the_state_before playing_B 30).
  - left. reflexivity.
  - left. reflexivity.
  - discriminate.
Defined.

(** A call queued during a seek.  [Pause] during a seek that started
    while Playing, or [Play] during one that started while Paused, changes
    nothing at first.  When the backend reports the seek as complete, no
    event is sent for the state before the seek: the backend is told to
    pause, or to resume, and the only event after the Seeking event is the
    one for the state asked for, when the backend reports it. *)
Theorem call_queued_during_seek ps t (q : Duration) :
  t <> -1 ->
  0 <= q ->
  (State_ ps = STATE_PLAYING ->
   steps (Running ps) (seek_with_queued t CallPause STATE_PAUSED q)
   = (Running (mkPlayState (Playlist ps) (Index ps) STATE_PAUSED (Volume ps)
                 (-1) STATE_PLAYING false (-1)),
      [SendStateChange STATE_SEEKING t; PlayerSetPosition t]
        ++ (if newVolume ps then [PlayerSetVolume (Volume ps)] else [])
        ++ [PlayerPause; SendStateChange STATE_PAUSED q]))
  /\ (State_ ps = STATE_PAUSED ->
      steps (Running ps) (seek_with_queued t CallPlay STATE_PLAYING q)
      = (Running (mkPlayState (Playlist ps) (Index ps) STATE_PLAYING
                    (Volume ps) (-1) STATE_PAUSED false (-1)),
         [SendStateChange STATE_SEEKING t; PlayerSetPosition t]
           ++ (if newVolume ps then [PlayerSetVolume (Volume ps)] else [])
           ++ [PlayerResume; SendStateChange STATE_PLAYING q])).
Proof.
  intros Ht Hq. unfold seek_with_queued. split; intros Hst; run_steps.
  - rewrite (Seek_seeks None ps t (or_introl Hst) Ht). run_steps.
    rewrite (Pause_while_seeking
               (mkPlayState (Playlist ps) (Index ps) STATE_SEEKING (Volume ps)
                  t (State_ ps) (newVolume ps) (nextState ps)) eq_refl).
    run_steps.
    rewrite (run_event_seek_complete_queued None
               (set_nextState STATE_PAUSED
                  (mkPlayState (Playlist ps) (Index ps) STATE_SEEKING
                     (Volume ps) t (State_ ps) (newVolume ps) (nextState ps)))
               eq_refl (or_introl (conj Hst eq_refl))).
    run_steps. rewrite Hst.
    rewrite (run_event_paused
               (mkPlayState (Playlist ps) (Index ps) STATE_PLAYING (Volume ps)
                  t STATE_PLAYING false (-1))
               q ltac:(discriminate) ltac:(discriminate) Hq).
    run_steps. destruct (newVolume ps); reflexivity.
  - rewrite (Seek_seeks None ps t (or_intror Hst) Ht). run_steps.
    rewrite (Play_while_seeking None
               (mkPlayState (Playlist ps) (Index ps) STATE_SEEKING (Volume ps)
                  t (State_ ps) (newVolume ps) (nextState ps)) eq_refl).
    run_steps.
    rewrite (run_event_seek_complete_queued None
               (set_nextState STATE_PLAYING
                  (mkPlayState (Playlist ps) (Index ps) STATE_SEEKING
                     (Volume ps) t (State_ ps) (newVolume ps) (nextState ps)))
               eq_refl (or_intror (conj Hst eq_refl))).
    run_steps. rewrite Hst.
    rewrite (run_event_playing
               (mkPlayState (Playlist ps) (Index ps) STATE_PAUSED (Volume ps)
                  t STATE_PAUSED false (-1))
               q ltac:(discriminate) Hq).
    run_steps. destruct (newVolume ps); reflexivity.
Qed.

Lemma call_queued_during_seek_witness :
  steps (Running playing_B) (seek_with_queued 30 CallPause STATE_PAUSED 31)
  = (Running (mkPlayState ["A"; "B"; "C"] 1 STATE_PAUSED 80 (-1)
                STATE_PLAYING false (-1)),
     [SendStateChange STATE_SEEKING 30; PlayerSetPosition 30; PlayerPause;
      SendStateChange STATE_PAUSED 31])
  /\ steps (Running paused_B) (seek_with_queued 30 CallPlay STATE_PLAYING 31)
     = (Running (mkPlayState ["A"; "B"] 1 STATE_PLAYING 80 (-1)
                   STATE_PAUSED false (-1)),
        [SendStateChange STATE_SEEKING 30; PlayerSetPosition 30;
         PlayerResume; SendStateChange STATE_PLAYING 31]).
Proof.
  split.
  - apply (proj1 (call_queued_during_seek playing_B 30 31
                    ltac:(discriminate) ltac:(lia))).
    reflexivity.
  - apply (proj2 (call_queued_during_seek paused_B 30 31
                    ltac:(discriminate) ltac:(lia))).
    reflexivity.
Defined.

(** ** Backend events and the end of playback *)

(** While Buffering, the only backend event that is acted upon is
    playing: paused and stopped are expected then (the previous video
    ends when the next one is loaded) and change nothing.  An event that
    is none of stopped, playing and paused is ignored in every state. *)
Theorem backend_events_that_are_ignored p ps event :
  (State_ ps = STATE_BUFFERING ->
   event <> STATE_PLAYING ->
   step (Running ps) (p, PlayerEvent event) = (Running ps, []))
  /\ (event <> STATE_STOPPED ->
      event <> STATE_PLAYING ->
      event <> STATE_PAUSED ->
      step (Running ps) (p, PlayerEvent event) = (Running ps, [])).
Proof.
  cbn [step run_select_event]. unfold run_event.
  split.
  - intros Hst Hev. apply Z.eqb_neq in Hev. rewrite Hev.
    destruct (event =? STATE_PAUSED);
      [|destruct (event =? STATE_STOPPED)];
      cbv [bind get ret]; rewrite ?Hst; reflexivity.
  - intros H0 H1 H2. apply Z.eqb_neq in H0, H1, H2.
    rewrite H0, H1, H2. reflexivity.
Qed.

Lemma backend_events_that_are_ignored_witness :
  step (Running buffering_B) (None, PlayerEvent STATE_STOPPED)
  = (Running buffering_B, [])
  /\ step (Running playing_B) (None, PlayerEvent 7) = (Running playing_B, []).
Proof.
  split.
  - apply (proj1 (backend_events_that_are_ignored None buffering_B
                    STATE_STOPPED)); [reflexivity|discriminate].
  - apply (proj2 (backend_events_that_are_ignored None playing_B 7));
      discriminate.
Defined.

(** [nextVideo] with no video after the current one. *)
Lemma nextVideo_stops p ps :
  len (Playlist ps) <= Index ps + 1 ->
  GoInt.in_range (Index ps + 1) ->
  State_ ps <> STATE_SEEKING ->
  nextVideo p ps
  = Done tt
      (mkPlayState (Playlist ps) (Index ps) STATE_STOPPED (Volume ps) (-1)
         (State_ ps) (newVolume ps) (nextState ps))
      [SendStateChange STATE_STOPPED 0].
Proof.
  intros Hlen Hrange Hst. apply Z.eqb_neq in Hst.
  destruct ps as [pl idx st vol bp prev nv nx]. cbn in Hlen, Hrange, Hst.
  assert (Htest : (GoInt.add idx 1 <? len pl) = false).
  { unfold GoInt.add. rewrite (wrap_id _ Hrange). apply Z.ltb_ge. lia. }
  apply returns_Done. unfold nextVideo, setPlayState, getPosition.
  returns_run; returns_fields.
Qed.

(** [Stop] itself sends no event.  While Playing or Paused, the
    state becomes Stopped, with one Stopped event at position 0, when the
    backend reports that it stopped.  While Buffering, that report is
    ignored: the state stays Buffering and no event is sent. *)
Theorem Stop_then_backend_stopped ps :
  (State_ ps = STATE_PLAYING \/ State_ ps = STATE_PAUSED ->
   -1 <= Index ps < GoInt.max_int ->
   steps (Running ps) stop_then_stopped
   = (Running (mkPlayState [] (Index ps) STATE_STOPPED (Volume ps) (-1)
                 (State_ ps) (newVolume ps) (nextState ps)),
      [PlayerStop; SendStateChange STATE_STOPPED 0]))
  /\ (State_ ps = STATE_BUFFERING ->
      steps (Running ps) stop_then_stopped
      = (Running (set_Playlist [] ps), [PlayerStop])).
Proof.
  unfold stop_then_stopped. split.
  - intros Hst Hidx. run_steps.
    change (Stop ps) with (Done tt (set_Playlist [] ps) [PlayerStop]).
    run_steps.
    rewrite (run_event_stopped None (set_Playlist [] ps) Hst).
    rewrite (nextVideo_stops None (set_Playlist [] ps)).
    + reflexivity.
    + cbn. lia.
    + unfold GoInt.in_range, GoInt.min_int, GoInt.max_int in *. cbn. lia.
    + destruct Hst as [H|H]; cbn; rewrite H; discriminate.
  - intros Hst. run_steps.
    change (Stop ps) with (Done tt (set_Playlist [] ps) [PlayerStop]).
    run_steps.
    assert (E : run_event None STATE_STOPPED (set_Playlist [] ps)
                = Done tt (set_Playlist [] ps) []).
    { unfold run_event.
      change (STATE_STOPPED =? STATE_PLAYING) with false.
      change (STATE_STOPPED =? STATE_PAUSED) with false.
      change (STATE_STOPPED =? STATE_STOPPED) with true.
      cbv [bind get ret]. fields. now rewrite Hst. }
    rewrite E. reflexivity.
Qed.

Lemma Stop_then_backend_stopped_witness :
  steps (Running playing_B) stop_then_stopped
  = (Running (mkPlayState [] 1 STATE_STOPPED 80 (-1) STATE_PLAYING false
                (-1)),
     [PlayerStop; SendStateChange STATE_STOPPED 0])
  /\ steps (Running buffering_B) stop_then_stopped
     = (Running (set_Playlist [] buffering_B), [PlayerStop]).
Proof.
  split.
  - apply (proj1 (Stop_then_backend_stopped playing_B)).
    + left. reflexivity.
    + unfold playing_B, GoInt.max_int. cbn [Index]. lia.
  - apply (proj2 (Stop_then_backend_stopped buffering_B)). reflexivity.
Defined.

(** [Quit] tells the backend and the stream resolver to quit and
    leaves the play state as it is; once the backend has closed its event
    channel, the coordinator has closed its own two channels, and whatever
    comes afterwards (calls, answers of resolutions, prefetches) has no
    effect. *)
Theorem Quit_shuts_down p p' ps xs :
  steps (Running ps) ((p, Command CallQuit) :: (p', PlayerEventsClosed) :: xs)
  = (Closed, [PlayerQuit; VgQuit; CloseStateChange; ClosePlaystateChan])
  /\ call p CallQuit (Running ps) = (Running ps, [PlayerQuit; VgQuit]).
Proof.
  split; [|reflexivity].
  cbn [steps].
  change (step (Running ps) (p, Command CallQuit))
    with (Running ps, [PlayerQuit; VgQuit]).
  cbv beta iota.
  change (step (Running ps) (p', PlayerEventsClosed))
    with (Closed, [CloseStateChange; ClosePlaystateChan]).
  cbv beta iota. now rewrite steps_Closed.
Qed.

(** While Stopped with a video at the index, [Play] starts that
    video from the beginning and [Seek(t)] starts it at [t]: the state
    becomes Buffering, one Buffering event is sent and the resolution of
    the video starts. *)
Theorem Play_and_Seek_while_stopped_start_the_video p ps videoId :
  State_ ps = STATE_STOPPED ->
  slice_get (Playlist ps) (Index ps) = Some videoId ->
  call p CallPlay (Running ps)
  = (Running (mkPlayState (Playlist ps) (Index ps) STATE_BUFFERING
                (Volume ps) 0 STATE_STOPPED (newVolume ps) (nextState ps)),
     [SendStateChange STATE_BUFFERING 0; GoGetStream videoId 0])
  /\ forall t,
      t <> -1 ->
      call p (CallSeek t) (Running ps)
      = (Running (mkPlayState (Playlist ps) (Index ps) STATE_BUFFERING
                    (Volume ps) t STATE_STOPPED (newVolume ps)
                    (nextState ps)),
         [SendStateChange STATE_BUFFERING t; GoGetStream videoId t]).
Proof.
  intros Hst Hcur. pose proof (slice_get_Some _ _ _ Hcur) as Hidx.
  assert (Hseek : State_ ps <> STATE_SEEKING) by (rewrite Hst; discriminate).
  assert (Hstart : forall t, t <> -1 ->
            startPlaying p t ps
            = Done tt
                (mkPlayState (Playlist ps) (Index ps) STATE_BUFFERING
                   (Volume ps) t STATE_STOPPED (newVolume ps) (nextState ps))
                [SendStateChange STATE_BUFFERING t; GoGetStream videoId t]).
  { intros t Ht.
    rewrite (startPlaying_starts p ps t videoId Hcur)
      by (rewrite (reported_position_id ps t Hseek); exact Ht).
    rewrite (reported_position_id ps t Hseek), Hst. reflexivity. }
  unfold call, getPlayState. cbn [callback_of]. split.
  - unfold Play. cbv [bind get]. rewrite Hst.
    change (STATE_STOPPED =? STATE_STOPPED) with true. cbv iota.
    replace (len (Playlist ps) <=? Index ps) with false
      by (symmetry; apply Z.leb_gt; lia).
    rewrite (Hstart 0) by discriminate. reflexivity.
  - intros t Ht. unfold Seek. cbv [bind get]. rewrite Hst.
    change (STATE_STOPPED =? STATE_STOPPED) with true. cbv iota.
    rewrite (Hstart t Ht). reflexivity.
Qed.

Lemma Play_and_Seek_while_stopped_start_the_video_witness :
  call None CallPlay
       (Running (mkPlayState ["A"; "B"] 1 STATE_STOPPED 80 (-1) STATE_PLAYING
                   false (-1)))
  = (Running buffering_B,
     [SendStateChange STATE_BUFFERING 0; GoGetStream "B" 0])
  /\ forall t,
      t <> -1 ->
      call None (CallSeek t)
           (Running (mkPlayState ["A"; "B"] 1 STATE_STOPPED 80 (-1)
                       STATE_PLAYING false (-1)))
      = (Running (mkPlayState ["A"; "B"] 1 STATE_BUFFERING 80 t
                    STATE_STOPPED false (-1)),
         [SendStateChange STATE_BUFFERING t; GoGetStream "B" t]).
Proof.
  apply (Play_and_Seek_while_stopped_start_the_video None
           (mkPlayState ["A"; "B"] 1 STATE_STOPPED 80 (-1) STATE_PLAYING
              false (-1)) "B"); reflexivity.
Defined.
